(** * PiStorage: a shallow embedding of the [PiStorage] class

    The JavaScript class keeps a table of three decimal expansions
    (pi, e, phi), a cache of digit arrays, and offers a base codec, a
    message codec, a digit generator, a sequence locator and the
    [encode] / [decode] pair.  Every method is translated below under its
    own name.

    Conventions of the embedding:
    - a JavaScript number that holds an integer is a [Z]; the model is
      exact for safe integers (magnitude below 2^53), which is where
      [%], [/] followed by [Math.floor], and the comparisons used here
      are exact on doubles;
    - a JavaScript string is the list of its UTF-16 code units
      ([jsstring]); property names and cache keys are Rocq [string]s;
    - a thrown exception is the [Throw] case of [outcome];
    - the object's mutable state (the cache, and the position in the
      stream of [Math.random] outcomes) is threaded explicitly. *)

From Stdlib Require Import Ascii.
From stdpp Require Import gmap strings list fin_maps pretty.
From Equations Require Import Equations.

Local Open Scope Z_scope.

(** ** Errors and results *)

Inductive error : Type :=
  | InvalidBase        (* Error("Base must be between 2 and 65536") *)
  | InvalidCharacter   (* Error("Invalid character for base ...") *)
  | UnknownConstant    (* Error("Unknown constant: ...") *)
  | EmptyMessage       (* Error("Message cannot be empty") *)
  | CouldNotEncode     (* Error("Could not encode message") *)
  | JsRangeError       (* RangeError: toString() radix must be between 2 and 36 *)
  | JsTypeError.       (* TypeError: ... is not a function *)

Inductive outcome (A : Type) : Type :=
  | Ok (a : A)
  | Throw (e : error).
Arguments Ok {A} a.
Arguments Throw {A} e.

(** ** JavaScript strings *)

(** A string is the sequence of its UTF-16 code units. *)
Definition jsstring : Type := list Z.

Definition code_unit (c : Z) : Prop := 0 <= c < 65536.

(** The code units of an ASCII literal. *)
Definition js (s : string) : jsstring :=
  map (fun a => Z.of_N (Ascii.N_of_ascii a)) (String.list_ascii_of_string s).

(** [String.fromCharCode(n)]: the code unit ToUint16(n). *)
Definition fromCharCode (n : Z) : Z := n mod 65536.

(** ** Base codec *)

Definition base_out_of_range (base : Z) : bool :=
  (base <? 2) || (base >? 65536).

(** The character pushed for one remainder in [numberToBase]:
    [remainder < 10 ? String(remainder) : String.fromCharCode(65 + remainder - 10)]
    for bases up to 36, [String.fromCharCode(remainder)] above. *)
Definition digitChar (base remainder : Z) : Z :=
  if base <=? 36 then
    if remainder <? 10 then 48 + remainder
    else fromCharCode (65 + remainder - 10)
  else fromCharCode remainder.

(** The [while (number > 0)] loop of [numberToBase]; [result.unshift]
    puts the new character in front.  The loop is only entered after the
    range check on [base], which is what makes it terminate. *)
Equations? numberToBase_loop (base : Z) (Hbase : 2 <= base)
    (number : Z) (result : jsstring) : jsstring
    by wf (Z.to_nat number) lt :=
  numberToBase_loop base Hbase number result with Z_lt_dec 0 number := {
    | left _ =>
        numberToBase_loop base Hbase (number / base)
          (digitChar base (number mod base) :: result)
    | right _ => result }.
Proof.
  apply Z2Nat.inj_lt; try lia.
  - apply Z.div_pos; lia.
  - apply Z.div_lt; lia.
Qed.

Definition numberToBase (number base : Z) : outcome jsstring :=
  match Z_le_dec 2 base with
  | right _ => Throw InvalidBase
  | left Hbase =>
      if base >? 65536 then Throw InvalidBase
      else if number =? 0 then Ok (js "0")
      else Ok (numberToBase_loop base Hbase number [])
  end.

(** The value of one character in [baseToNumber]. *)
Definition charValue (base char : Z) : outcome Z :=
  if base <=? 36 then
    if (48 <=? char) && (char <=? 57) then Ok (char - 48)
    else if (65 <=? char) && (char <=? 90) then Ok (10 + (char - 65))
    else if (97 <=? char) && (char <=? 122) then Ok (10 + (char - 97))
    else Throw InvalidCharacter
  else Ok char.

(** The [for] loop of [baseToNumber], with [result] as accumulator. *)
Fixpoint baseToNumber_loop (base : Z) (string : jsstring) (result : Z)
    : outcome Z :=
  match string with
  | [] => Ok result
  | char :: rest =>
      match charValue base char with
      | Ok value => baseToNumber_loop base rest (result * base + value)
      | Throw e => Throw e
      end
  end.

Definition baseToNumber (string : jsstring) (base : Z) : outcome Z :=
  if base_out_of_range base then Throw InvalidBase
  else baseToNumber_loop base string 0.

(** ** Message codec *)

(** [message.charCodeAt(i)] for every [i]; the [targetBase] parameter of
    the source is not used by its body. *)
Definition messageToNumbers (message : jsstring) : list Z := message.

Definition numbersToMessage (numbers : list Z) : jsstring :=
  map fromCharCode numbers.

(** ** The table of constants *)

(** What [this.constants[name]] evaluates to.  The table is an object
    literal, so besides its three own properties a lookup also reaches
    the members of [Object.prototype]; those are truthy and are not
    strings. *)
Inductive property : Type :=
  | Expansion (text : string)
  | Inherited
  | Undefined.

Definition Object_prototype_names : list string :=
  [ "constructor"; "hasOwnProperty"; "isPrototypeOf";
    "propertyIsEnumerable"; "toLocaleString"; "toString"; "valueOf";
    "__proto__"; "__defineGetter__"; "__defineSetter__";
    "__lookupGetter__"; "__lookupSetter__" ]%string.

Definition constants (name : string) : property :=
  if decide (name = "pi")%string then
    Expansion "3.1415926535897932384626433832795028841971693993751058209749445923078164062862089986280348253421170679"
  else if decide (name = "e")%string then
    Expansion "2.7182818284590452353602874713526624977572470936999595749669676277240766303535475945713821785251664274"
  else if decide (name = "phi")%string then
    Expansion "1.6180339887498948482045868343656381177203091798057628621354486227052604628189024497072072041893911374"
  else if decide (name ∈ Object_prototype_names) then Inherited
  else Undefined.

(** [text.replace('.', '')]: the first full stop is removed. *)
Fixpoint replace_dot (text : list Ascii.ascii) : list Ascii.ascii :=
  match text with
  | [] => []
  | c :: rest => if decide (c = "."%char) then rest else c :: replace_dot rest
  end.

(** [parseInt(digit)] on a one-character string.  Every character of
    the three expansions is a decimal digit once the full stop is gone
    (lemma [expansion_chars_are_digits] below), so the NaN case of
    [parseInt] is never reached; it is rendered as [-1], a value no
    code unit and no digit equals. *)
Definition parseInt (digit : Ascii.ascii) : Z :=
  let c := Z.of_N (Ascii.N_of_ascii digit) in
  if (48 <=? c) && (c <=? 57) then c - 48 else -1.

(** The first loop of [getConstantInBase]: both branches of the
    [base === 10] test push the same [digitValue]. *)
Definition seedDigits (base : Z) (text : string) : list Z :=
  map (fun digit =>
         let digitValue := parseInt digit in
         if base =? 10 then digitValue else digitValue)
      (replace_dot (String.list_ascii_of_string text)).

(** ** The object's state and [Math.random] *)

(** [Math.floor(Math.random() * 10)]: [Math.random()] is a double in
    [0, 1), so the expression is one of the ten integers 0..9, chosen by
    the environment. *)
Inductive decimal : Type := D0 | D1 | D2 | D3 | D4 | D5 | D6 | D7 | D8 | D9.

Definition decimalValue (d : decimal) : Z :=
  match d with
  | D0 => 0 | D1 => 1 | D2 => 2 | D3 => 3 | D4 => 4
  | D5 => 5 | D6 => 6 | D7 => 7 | D8 => 8 | D9 => 9
  end.

(** An instance of the class in its environment: the cache, the outcomes
    the environment will give to successive [Math.random] calls, and how
    many of them have been consumed. *)
Record PiStorage : Type := {
  baseDigitsCache : gmap string (list Z);
  randomSource : N -> decimal;
  randomCalls : N
}.

(** [new PiStorage()] in an environment with the given random outcomes. *)
Definition newPiStorage (source : N -> decimal) : PiStorage :=
  {| baseDigitsCache := ∅; randomSource := source; randomCalls := 0%N |}.

(** Stateful, fallible computations.  The state survives a throw: what a
    method did to the cache before throwing stays done. *)
Definition M (A : Type) : Type := PiStorage -> outcome A * PiStorage.

Definition ret {A} (a : A) : M A := fun s => (Ok a, s).
Definition throw {A} (e : error) : M A := fun s => (Throw e, s).
Definition bind {A B} (m : M A) (k : A -> M B) : M B := fun s =>
  match m s with
  | (Ok a, s') => k a s'
  | (Throw e, s') => (Throw e, s')
  end.
Definition lift {A} (r : outcome A) : M A := fun s => (r, s).
(** [try { body } catch (e) { handler }]. *)
Definition try_catch {A} (body : M A) (handler : error -> M A) : M A := fun s =>
  match body s with
  | (Ok a, s') => (Ok a, s')
  | (Throw e, s') => handler e s'
  end.

Notation "'let*' x ':=' m 'in' k" := (bind m (fun x => k))
  (at level 10, x pattern, m at level 100, k at level 200).

(** ** Digit generator *)

(** The template literal [`${constant}_${base}_${maxDigits}`]. *)
Definition cacheKey (constant : string) (base maxDigits : Z) : string :=
  constant +:+ "_" +:+ pretty base +:+ "_" +:+ pretty maxDigits.

(** [count] successive evaluations of [Math.floor(Math.random() * 10)],
    starting with call number [from]. *)
Fixpoint randomDigits (source : N -> decimal) (from : N) (count : nat) : list Z :=
  match count with
  | O => []
  | S count' => decimalValue (source from) :: randomDigits source (N.succ from) count'
  end.

(** [while (result.length < maxDigits) result.push(...)] runs
    [maxDigits - result.length] times when that is positive and not at
    all otherwise. *)
Definition extendWithRandom (result : list Z) (maxDigits : Z) : M (list Z) := fun s =>
  let missing := Z.to_nat (maxDigits - Z.of_nat (length result)) in
  (Ok (result ++ randomDigits (randomSource s) (randomCalls s) missing),
   {| baseDigitsCache := baseDigitsCache s;
      randomSource := randomSource s;
      randomCalls := (randomCalls s + N.of_nat missing)%N |}).

Definition cacheSet (key : string) (value : list Z) : M unit := fun s =>
  (Ok tt,
   {| baseDigitsCache := <[key := value]> (baseDigitsCache s);
      randomSource := randomSource s;
      randomCalls := randomCalls s |}).

Definition getConstantInBase (constant : string) (base maxDigits : Z) : M (list Z) := fun s =>
  let key := cacheKey constant base maxDigits in
  match baseDigitsCache s !! key with
  | Some cached => (Ok cached, s)
  | None =>
      match constants constant with
      | Undefined => (Throw UnknownConstant, s)
      | Inherited => (Throw JsTypeError, s)   (* [.replace] is not a function *)
      | Expansion text =>
          (let* result := extendWithRandom (seedDigits base text) maxDigits in
           let* _ := cacheSet key result in
           ret result) s
      end
  end.

(** ** Sequence locator *)

(** The tuple returned by [findOptimalSequence] and by [encode]. *)
Module Encoding.
Record t : Type := make {
  constant : string;
  base : Z;
  start : Z;
  length : Z;
  found : bool
}.
End Encoding.

(** The inner loop: [constantDigits[start + i] !== messageNumbers[i]]
    for [i] from 0, on the digits from [start] on.  Reading past the end
    of the array gives [undefined], which differs from every number. *)
Fixpoint matchHere (digitsFromStart messageNumbers : list Z)
    {struct messageNumbers} : bool :=
  match messageNumbers, digitsFromStart with
  | [], _ => true
  | _ :: _, [] => false
  | m :: ms, d :: ds => if d =? m then matchHere ds ms else false
  end.

(** The outer loop, [iterations] more values of [start] to go. *)
Fixpoint scanFrom (iterations : nat) (digitsFromStart messageNumbers : list Z)
    (start : Z) : option Z :=
  match iterations with
  | O => None
  | S iterations' =>
      if matchHere digitsFromStart messageNumbers then Some start
      else scanFrom iterations' (tail digitsFromStart) messageNumbers (start + 1)
  end.

(** [for (start = 0; start < constantDigits.length - messageNumbers.length; start++)] *)
Definition scan (constantDigits messageNumbers : list Z) : option Z :=
  scanFrom
    (Z.to_nat (Z.of_nat (length constantDigits) - Z.of_nat (length messageNumbers)))
    constantDigits messageNumbers 0.

(** The default [maxDigits] of [getConstantInBase]. *)
Definition defaultMaxDigits : Z := 10000.

Definition findOptimalSequence (message : jsstring) (constant : string) (base : Z)
    : M Encoding.t :=
  let messageNumbers := messageToNumbers message in
  let* constantDigits := getConstantInBase constant base defaultMaxDigits in
  match scan constantDigits messageNumbers with
  | Some start =>
      ret (Encoding.make constant base start (Z.of_nat (length messageNumbers)) true)
  | None =>
      ret (Encoding.make constant base 0 (Z.of_nat (length message) * 2) false)
  end.

(** ** [Number.prototype.toString(radix)] on integers *)

Definition radixChar (d : Z) : Z :=
  if d <? 10 then 48 + d else 97 + (d - 10).

Equations? radixDigits (radix : Z) (Hradix : 2 <= radix)
    (n : Z) (acc : jsstring) : jsstring
    by wf (Z.to_nat n) lt :=
  radixDigits radix Hradix n acc with Z_lt_dec 0 n := {
    | left _ => radixDigits radix Hradix (n / radix) (radixChar (n mod radix) :: acc)
    | right _ => acc }.
Proof.
  apply Z2Nat.inj_lt; try lia.
  - apply Z.div_pos; lia.
  - apply Z.div_lt; lia.
Qed.

Definition Number_toString (n radix : Z) : outcome jsstring :=
  match Z_le_dec 2 radix with
  | right _ => Throw JsRangeError
  | left Hradix =>
      if radix >? 36 then Throw JsRangeError
      else if n =? 0 then Ok (js "0")
      else if n <? 0 then Ok (js "-" ++ radixDigits radix Hradix (- n) [])
      else Ok (radixDigits radix Hradix n [])
  end.

(** ** Encoder and decoder *)

(** [bestLength] starts as [Infinity], rendered as [None]. *)
Definition belowBest (encoding_size : Z) (bestLength : option Z) : bool :=
  match bestLength with
  | None => true
  | Some best => encoding_size <? best
  end.

(** The [try] block of [encode] for one [(constant, base)], with its
    [catch] that skips the combination.  The pair is
    [(bestResult, bestLength)]. *)
Definition tryCandidate (message : jsstring) (constant : string) (base : Z)
    (best : option Encoding.t * option Z) : M (option Encoding.t * option Z) :=
  try_catch
    (let* result := findOptimalSequence message constant base in
     let* startText := lift (Number_toString (Encoding.start result) base) in
     let* lengthText := lift (Number_toString (Encoding.length result) base) in
     let encoding_size := Z.of_nat (length startText) + Z.of_nat (length lengthText) in
     if belowBest encoding_size (snd best)
     then ret (Some result, Some encoding_size)
     else ret best)
    (fun _ => ret best).

Fixpoint forBases (message : jsstring) (constant : string) (bases : list Z)
    (best : option Encoding.t * option Z) : M (option Encoding.t * option Z) :=
  match bases with
  | [] => ret best
  | base :: rest =>
      let* best' := tryCandidate message constant base best in
      forBases message constant rest best'
  end.

Fixpoint forConstants (message : jsstring) (constants : list string) (bases : list Z)
    (best : option Encoding.t * option Z) : M (option Encoding.t * option Z) :=
  match constants with
  | [] => ret best
  | constant :: rest =>
      let* best' := forBases message constant bases best in
      forConstants message rest bases best'
  end.

Definition encode (message : jsstring) : M Encoding.t :=
  if Z.of_nat (length message) =? 0 then throw EmptyMessage
  else
    let constants := ["pi"; "e"; "phi"]%string in
    let bases := [16; 32; 64; 256] in
    let* best := forConstants message constants bases (None, None) in
    match fst best with
    | None => throw CouldNotEncode
    | Some bestResult => ret bestResult
    end.

(** [array.slice(start, end)], negative arguments counting from the end. *)
Definition slice {A} (array : list A) (start finish : Z) : list A :=
  let len := Z.of_nat (length array) in
  let k := if start <? 0 then Z.max (len + start) 0 else Z.min start len in
  let final := if finish <? 0 then Z.max (len + finish) 0 else Z.min finish len in
  take (Z.to_nat (final - k)) (drop (Z.to_nat k) array).

Definition decode (constant : string) (base start length : Z) : M jsstring :=
  match constants constant with
  | Undefined => throw UnknownConstant
  | _ =>
      let* constantDigits := getConstantInBase constant base (start + length) in
      let messageNumbers := slice constantDigits start (start + length) in
      ret (numbersToMessage messageNumbers)
  end.

(** ** Reachable states and what is observed about them *)

(** The states an instance can be in: a fresh object, then any sequence
    of calls of its stateful methods. *)
Inductive reachable : PiStorage -> Prop :=
  | reachable_new source :
      reachable (newPiStorage source)
  | reachable_getConstantInBase s constant base maxDigits :
      reachable s -> reachable (snd (getConstantInBase constant base maxDigits s))
  | reachable_findOptimalSequence s message constant base :
      reachable s -> reachable (snd (findOptimalSequence message constant base s))
  | reachable_encode s message :
      reachable s -> reachable (snd (encode message s))
  | reachable_decode s constant base start length :
      reachable s -> reachable (snd (decode constant base start length s)).

(** The digits of a constant of the table, as the first loop of
    [getConstantInBase] produces them (in any base, see
    [seedDigits_base]). *)
Definition expansionDigits (constant : string) : list Z :=
  match constants constant with
  | Expansion text => seedDigits 10 text
  | _ => []
  end.

Definition decimalDigit (d : Z) : Prop := 0 <= d <= 9.

Definition decimalDigitb (d : Z) : bool := (0 <=? d) && (d <=? 9).

(** Every cached array was built by [getConstantInBase] for a constant
    of the table: it starts with that constant's digits and holds
    decimal digits only. *)
Definition cacheInvariant (s : PiStorage) : Prop :=
  forall key digits,
    baseDigitsCache s !! key = Some digits ->
    exists constant base maxDigits text,
      key = cacheKey constant base maxDigits /\
      constants constant = Expansion text /\
      seedDigits base text `prefix_of` digits /\
      Forall decimalDigit digits.

(** A method preserves the invariant. *)
Definition preserves {A} (m : M A) : Prop :=
  forall s, cacheInvariant s -> cacheInvariant (snd (m s)).

(** [messageNumbers] occurs in [constantDigits] at offset [k]: the
    comparison of the locator's inner loop succeeds for every [i]. *)
Definition occursAt (constantDigits messageNumbers : list Z) (k : nat) : Prop :=
  forall i, (i < length messageNumbers)%nat ->
    constantDigits !! (k + i)%nat = messageNumbers !! i.

(** The searches [encode] performs, in its order and with its state
    threading, with the tuple each one returned. *)
Fixpoint searchBases (message : jsstring) (constant : string) (bases : list Z)
    : M (list Encoding.t) :=
  match bases with
  | [] => ret []
  | base :: rest =>
      let* result := findOptimalSequence message constant base in
      let* results := searchBases message constant rest in
      ret (result :: results)
  end.

Fixpoint searchConstants (message : jsstring) (constants : list string) (bases : list Z)
    : M (list Encoding.t) :=
  match constants with
  | [] => ret []
  | constant :: rest =>
      let* here := searchBases message constant bases in
      let* later := searchConstants message rest bases in
      ret (here ++ later)
  end.

Definition candidateSearches (message : jsstring) : M (list Encoding.t) :=
  searchConstants message ["pi"; "e"; "phi"]%string [16; 32; 64; 256].

(** The radixes [Number.prototype.toString] accepts. *)
Definition validRadix (radix : Z) : Prop := 2 <= radix <= 36.

(** [(bestResult, bestLength)] is either the initial [(null, Infinity)]
    or one of the tuples in [results] with its size. *)
Definition bestFrom (results : list Encoding.t)
    (best : option Encoding.t * option Z) : Prop :=
  match best with
  | (None, None) => True
  | (Some result, Some _) => result ∈ results
  | _ => False
  end.

(** A tuple returned with [found: false] carries the locator's fallback
    values: start 0 and twice the message length. *)
Definition fallbackShape (message : jsstring) (result : Encoding.t) : Prop :=
  Encoding.found result = false ->
  Encoding.start result = 0 /\
  Encoding.length result = Z.of_nat (length message) * 2.

(** A tuple returned with [found: true] points into an array that
    starts with its constant's seed digits and holds the message at the
    tuple's start. *)
Definition foundShape (message : jsstring) (result : Encoding.t) : Prop :=
  Encoding.found result = true ->
  exists digits text,
    constants (Encoding.constant result) = Expansion text /\
    expansionDigits (Encoding.constant result) `prefix_of` digits /\
    Forall decimalDigit digits /\
    0 <= Encoding.start result /\
    occursAt digits message (Z.to_nat (Encoding.start result)) /\
    Encoding.length result = Z.of_nat (length message).

(** Environments used in the examples: [Math.random] outcomes that all
    floor to 0, that all floor to 1, and that floor to 0 for the first
    [n] calls and to 1 afterwards. *)
Definition zeros : N -> decimal := fun _ => D0.
Definition ones : N -> decimal := fun _ => D1.
Definition zerosThenOnes (n : N) : N -> decimal :=
  fun i => if (i <? n)%N then D0 else D1.

(** ** Further observations *)

(** The characters [baseToNumber] accepts in a base up to 36: decimal
    digits and letters of either case. *)
Definition alphanumeric (char : Z) : Prop :=
  48 <= char <= 57 \/ 65 <= char <= 90 \/ 97 <= char <= 122.

(** A capital letter replaced by its small letter; other code units are
    kept. *)
Definition lowerLetter (char : Z) : Z :=
  if (65 <=? char) && (char <=? 90) then char + 32 else char.

(** A character that [baseToNumber] reads as a digit below the base. *)
Definition digitOf (base char : Z) : Prop :=
  exists d, charValue base char = Ok d /\ 0 <= d < base.

(** A character that [baseToNumber] reads as a digit above zero. *)
Definition nonzeroDigit (base char : Z) : Prop :=
  exists d, charValue base char = Ok d /\ 0 < d.

(** A text without the separator of the cache keys. *)
Fixpoint underscoreFree (s : string) : Prop :=
  match s with
  | EmptyString => True
  | String c rest => c <> "_"%char /\ underscoreFree rest
  end.

(** What every cached array is, read through its key: the array of a
    constant of the table, made of that constant's 101 digits followed
    by as many decimal digits as were missing to reach [maxDigits]. *)
Definition cacheExact (s : PiStorage) : Prop :=
  forall constant base maxDigits digits,
    baseDigitsCache s !! cacheKey constant base maxDigits = Some digits ->
    exists text filler,
      constants constant = Expansion text /\
      digits = expansionDigits constant ++ filler /\
      length filler = Z.to_nat (maxDigits - 101) /\
      Forall decimalDigit filler.

(** [later s s']: the instance gets from state [s] to state [s'] by
    calls of its stateful methods. *)
Inductive later (s : PiStorage) : PiStorage -> Prop :=
  | later_now : later s s
  | later_getConstantInBase s' constant base maxDigits :
      later s s' -> later s (snd (getConstantInBase constant base maxDigits s'))
  | later_findOptimalSequence s' message constant base :
      later s s' -> later s (snd (findOptimalSequence message constant base s'))
  | later_encode s' message :
      later s s' -> later s (snd (encode message s'))
  | later_decode s' constant base start length :
      later s s' -> later s (snd (decode constant base start length s')).

(** A method moves the state along the relation [R]. *)
Definition moves {A} (R : PiStorage -> PiStorage -> Prop) (m : M A) : Prop :=
  forall s, R s (snd (m s)).

(** The cache only grows, the environment stays, and the count of
    random calls does not go down. *)
Definition grows (s s' : PiStorage) : Prop :=
  baseDigitsCache s ⊆ baseDigitsCache s' /\
  randomSource s' = randomSource s /\
  (randomCalls s <= randomCalls s')%N.

(** The size [encode] gives a tuple: the number of characters of its
    start and of its length written in its base; there is none when
    [toString] refuses the base. *)
Definition renderedSize (result : Encoding.t) : option Z :=
  match Number_toString (Encoding.start result) (Encoding.base result),
        Number_toString (Encoding.length result) (Encoding.base result) with
  | Ok startText, Ok lengthText =>
      Some (Z.of_nat (length startText) + Z.of_nat (length lengthText))
  | _, _ => None
  end.

(** What one candidate does to [(bestResult, bestLength)]. *)
Definition consider (best : option Encoding.t * option Z) (result : Encoding.t)
    : option Encoding.t * option Z :=
  match renderedSize result with
  | Some size => if belowBest size (snd best) then (Some result, Some size) else best
  | None => best
  end.

(** [result] is the first tuple of smallest size in [results]: tuples
    before it that have a size have a larger one, tuples after it that
    have a size have one at least as large. *)
Definition firstSmallest (results : list Encoding.t) (result : Encoding.t) : Prop :=
  exists size earlier later,
    results = earlier ++ result :: later /\
    renderedSize result = Some size /\
    Forall (fun r => forall sz, renderedSize r = Some sz -> size < sz) earlier /\
    Forall (fun r => forall sz, renderedSize r = Some sz -> size <= sz) later.

(** [(bestResult, bestLength)] after the tuples [results]. *)
Definition bestAfter (results : list Encoding.t)
    (best : option Encoding.t * option Z) : Prop :=
  match best with
  | (None, None) => Forall (fun r => renderedSize r = None) results
  | (Some result, Some size) =>
      renderedSize result = Some size /\ firstSmallest results result
  | _ => False
  end.

(** The twelve arrays that [encode] asks for are cached. *)
Definition candidatesCached (s : PiStorage) : Prop :=
  forall constant base,
    constant ∈ ["pi"; "e"; "phi"]%string ->
    base ∈ [16; 32; 64; 256] ->
    is_Some (baseDigitsCache s !! cacheKey constant base defaultMaxDigits).


(** * Properties *)

(** ** Sanity checks of the embedding *)

Example numberToBase_255_16 : numberToBase 255 16 = Ok (js "FF").
Proof. vm_compute. reflexivity. Qed.

Example numberToBase_300_256 : numberToBase 300 256 = Ok [1; 44].
Proof. vm_compute. reflexivity. Qed.

Example cacheKey_default : cacheKey "pi" 16 10000 = "pi_16_10000"%string.
Proof. vm_compute. reflexivity. Qed.

Example cacheKey_negative : cacheKey "pi" 10 (-1) = "pi_10_-1"%string.
Proof. vm_compute. reflexivity. Qed.

Example Number_toString_examples :
  Number_toString 255 16 = Ok (js "ff") /\
  Number_toString 16 32 = Ok (js "g") /\
  Number_toString 3 64 = Throw JsRangeError.
Proof. vm_compute. auto. Qed.

Example slice_examples :
  slice [3; 1; 4; 1; 5] 1 3 = [1; 4] /\
  slice [3; 1; 4; 1; 5] (-1) 2 = [] /\
  slice [3; 1; 4; 1; 5] (-2) 9 = [1; 5].
Proof. vm_compute. auto. Qed.

Example getConstantInBase_prototype_name :
  fst (getConstantInBase "toString" 10 5 (newPiStorage zeros)) = Throw JsTypeError.
Proof. vm_compute. reflexivity. Qed.

Example encode_found_in_seed :
  fst (encode [1; 4; 1] (newPiStorage zeros))
  = Ok (Encoding.make "pi" 16 1 3 true).
Proof. vm_compute. reflexivity. Qed.

(** ** Base codec *)

Lemma numberToBase_loop_positive base Hbase number result :
  0 < number ->
  numberToBase_loop base Hbase number result
  = numberToBase_loop base Hbase (number / base)
      (digitChar base (number mod base) :: result).
Proof.
  intros Hpos. rewrite numberToBase_loop_equation_1.
  destruct (Z_lt_dec 0 number); [reflexivity | lia].
Qed.

Lemma numberToBase_loop_done base Hbase number result :
  number <= 0 -> numberToBase_loop base Hbase number result = result.
Proof.
  intros Hle. rewrite numberToBase_loop_equation_1.
  destruct (Z_lt_dec 0 number); [lia | reflexivity].
Qed.

(** A remainder goes through [digitChar] and [charValue] unchanged. *)
Lemma charValue_digitChar base d :
  2 <= base <= 65536 -> 0 <= d < base -> charValue base (digitChar base d) = Ok d.
Proof.
  intros Hb Hd. unfold charValue, digitChar, fromCharCode.
  destruct (Z.leb_spec base 36) as [H36 | H36].
  - destruct (Z.ltb_spec d 10) as [H10 | H10].
    + replace ((48 <=? 48 + d) && (48 + d <=? 57)) with true
        by (symmetry; apply andb_true_intro; split; lia).
      f_equal; lia.
    + rewrite Z.mod_small by lia.
      replace ((48 <=? 65 + d - 10) && (65 + d - 10 <=? 57)) with false
        by (symmetry; apply andb_false_iff; right; lia).
      replace ((65 <=? 65 + d - 10) && (65 + d - 10 <=? 90)) with true
        by (symmetry; apply andb_true_intro; split; lia).
      f_equal; lia.
  - rewrite Z.mod_small by lia. reflexivity.
Qed.



(** C8.  The claim is that [baseToNumber(numberToBase(value, base), base)]
    is [value] for every [value >= 0] and every base from 2 to 65536.
    At value 0 and base 256 the code renders 0 as the character '0' and
    reads that character back as its code unit, 48. *)
Theorem base_codec_zero_in_high_base :
  numberToBase 0 256 = Ok (js "0") /\
  baseToNumber (js "0") 256 = Ok 48.
Proof. split; vm_compute; reflexivity. Qed.

(** ** Empty message *)

(** C10.  [encode] throws "Message cannot be empty" whenever the message
    has zero length, and leaves the instance as it was. *)
Theorem encode_empty_message (message : jsstring) (s : PiStorage) :
  length message = 0%nat ->
  encode message s = (Throw EmptyMessage, s).
Proof.
  intros Hlen. destruct message; [reflexivity | discriminate].
Qed.

Lemma encode_empty_message_witness :
  encode (js "") (newPiStorage zeros) = (Throw EmptyMessage, newPiStorage zeros).
Proof. apply (encode_empty_message (js "") (newPiStorage zeros)). reflexivity. Defined.

(** ** Sequence locator *)

Lemma occursAt_tail ds ms k : occursAt (tail ds) ms k <-> occursAt ds ms (S k).
Proof.
  unfold occursAt. split; intros H i Hi; specialize (H i Hi).
  - rewrite lookup_tail in H. exact H.
  - rewrite lookup_tail. exact H.
Qed.

Lemma matchHere_occursAt ds ms : matchHere ds ms = true <-> occursAt ds ms 0.
Proof.
  revert ds. induction ms as [| m ms IH]; intros ds.
  - split; [| reflexivity]. intros _ i Hi. cbn in Hi. lia.
  - destruct ds as [| d ds].
    + split; [discriminate |]. intros H. specialize (H 0%nat). cbn in H.
      discriminate H. lia.
    + cbn [matchHere]. destruct (Z.eqb_spec d m) as [-> | Hne].
      * rewrite IH. split.
        -- intros H [| i] Hi; [reflexivity |]. cbn. apply (H i). cbn in Hi. lia.
        -- intros H i Hi. apply (H (S i)). cbn. lia.
      * split; [discriminate |]. intros H. specialize (H 0%nat). cbn in H.
        assert (Some d = Some m) by (apply H; lia). congruence.
Qed.

Lemma scanFrom_Some iterations ds ms start r :
  scanFrom iterations ds ms start = Some r ->
  exists k, (k < iterations)%nat /\ r = start + Z.of_nat k /\ occursAt ds ms k /\
            forall j, (j < k)%nat -> ~ occursAt ds ms j.
Proof.
  revert ds start. induction iterations as [| n IH]; intros ds start H; [discriminate |].
  cbn [scanFrom] in H. destruct (matchHere ds ms) eqn:Hm.
  - injection H as <-. exists 0%nat. repeat split; try lia.
    apply matchHere_occursAt, Hm.
  - destruct (IH _ _ H) as (k & Hk & -> & Hocc & Hfirst).
    exists (S k). repeat split; try lia.
    + apply occursAt_tail, Hocc.
    + intros [| j] Hj Hoccj.
      * apply matchHere_occursAt in Hoccj. congruence.
      * apply (Hfirst j); [lia |]. apply occursAt_tail, Hoccj.
Qed.

Lemma scanFrom_None iterations ds ms start :
  scanFrom iterations ds ms start = None <->
  forall k, (k < iterations)%nat -> ~ occursAt ds ms k.
Proof.
  revert ds start. induction iterations as [| n IH]; intros ds start.
  - split; [| reflexivity]. intros _ k Hk. lia.
  - cbn [scanFrom]. destruct (matchHere ds ms) eqn:Hm.
    + split; [discriminate |]. intros H. exfalso. apply (H 0%nat); [lia |].
      apply matchHere_occursAt, Hm.
    + rewrite IH. split.
      * intros H [| k] Hk Hocc.
        -- apply matchHere_occursAt in Hocc. congruence.
        -- apply (H k); [lia |]. apply occursAt_tail, Hocc.
      * intros H k Hk Hocc. apply (H (S k)); [lia |]. apply occursAt_tail, Hocc.
Qed.

(** ** The table of constants and the seed digits *)

Lemma seedDigits_base base text : seedDigits base text = seedDigits 10 text.
Proof.
  unfold seedDigits. apply map_ext. intros digit. cbv zeta.
  destruct (base =? 10); reflexivity.
Qed.

Lemma constants_Expansion constant text :
  constants constant = Expansion text ->
  constant = "pi"%string \/ constant = "e"%string \/ constant = "phi"%string.
Proof.
  unfold constants. intros Hlookup.
  repeat case_decide; try discriminate Hlookup; auto.
Qed.

Lemma seedDigits_expansion constant base text :
  constants constant = Expansion text -> seedDigits base text = expansionDigits constant.
Proof.
  intros H. unfold expansionDigits. rewrite H. apply seedDigits_base.
Qed.

Lemma Forall_decimalDigit digits :
  forallb decimalDigitb digits = true -> Forall decimalDigit digits.
Proof.
  intros H. apply Forall_forall. intros d Hd.
  rewrite forallb_forall in H. apply list_elem_of_In in Hd.
  specialize (H d Hd). unfold decimalDigitb in H.
  apply andb_true_iff in H as [H1 H2]. unfold decimalDigit. lia.
Qed.

(** No [parseInt] of the table's characters is NaN: every seed digit is
    a decimal digit, and each expansion gives 101 of them. *)
Lemma expansion_chars_are_digits constant text :
  constants constant = Expansion text ->
  Forall decimalDigit (expansionDigits constant) /\
  length (expansionDigits constant) = 101%nat.
Proof.
  intros H. destruct (constants_Expansion _ _ H) as [-> | [-> | ->]];
    (split; [apply Forall_decimalDigit | ]); vm_compute; reflexivity.
Qed.

Lemma randomDigits_decimal source from count :
  Forall decimalDigit (randomDigits source from count).
Proof.
  revert from. induction count as [| n IH]; intros from; cbn [randomDigits].
  - constructor.
  - constructor; [| apply IH]. unfold decimalDigit. destruct (source from); cbn; lia.
Qed.

Lemma cacheKey_constant c1 b1 m1 t1 c2 b2 m2 t2 :
  constants c1 = Expansion t1 -> constants c2 = Expansion t2 ->
  cacheKey c1 b1 m1 = cacheKey c2 b2 m2 -> c1 = c2.
Proof.
  intros H1 H2 Hkey.
  destruct (constants_Expansion _ _ H1) as [-> | [-> | ->]];
  destruct (constants_Expansion _ _ H2) as [-> | [-> | ->]];
    try reflexivity; unfold cacheKey in Hkey; cbn in Hkey; discriminate Hkey.
Qed.

(** ** Digit generator *)

(** What a call of [getConstantInBase] does, by cases: a cache hit
    returns the cached array and changes nothing; otherwise a constant
    of the table gets its seed digits extended by fresh random digits,
    and the array is cached under the call's key. *)
Lemma getConstantInBase_hit constant base maxDigits s cached :
  baseDigitsCache s !! cacheKey constant base maxDigits = Some cached ->
  getConstantInBase constant base maxDigits s = (Ok cached, s).
Proof. intros H. unfold getConstantInBase. rewrite H. reflexivity. Qed.

Lemma getConstantInBase_miss constant base maxDigits s text :
  baseDigitsCache s !! cacheKey constant base maxDigits = None ->
  constants constant = Expansion text ->
  let missing := Z.to_nat (maxDigits - Z.of_nat (length (seedDigits base text))) in
  let result := seedDigits base text ++ randomDigits (randomSource s) (randomCalls s) missing in
  getConstantInBase constant base maxDigits s
  = (Ok result,
     {| baseDigitsCache := <[cacheKey constant base maxDigits := result]> (baseDigitsCache s);
        randomSource := randomSource s;
        randomCalls := (randomCalls s + N.of_nat missing)%N |}).
Proof.
  intros Hmiss Htext. unfold getConstantInBase. rewrite Hmiss, Htext. reflexivity.
Qed.

Lemma getConstantInBase_throws constant base maxDigits s e s' :
  getConstantInBase constant base maxDigits s = (Throw e, s') -> s' = s.
Proof.
  unfold getConstantInBase.
  destruct (baseDigitsCache s !! _); [congruence |].
  destruct (constants constant); [| congruence | congruence].
  unfold bind, extendWithRandom, cacheSet, ret. discriminate.
Qed.

(** A constant of the table always gets an array. *)
Lemma getConstantInBase_known constant base maxDigits s text :
  constants constant = Expansion text ->
  exists digits s', getConstantInBase constant base maxDigits s = (Ok digits, s').
Proof.
  intros Htext.
  destruct (baseDigitsCache s !! cacheKey constant base maxDigits) as [cached |] eqn:Hc.
  - eexists _, _. apply getConstantInBase_hit, Hc.
  - eexists _, _. apply (getConstantInBase_miss _ _ _ _ _ Hc Htext).
Qed.

(** Calling again with the same arguments on the same instance returns
    the cached array. *)
Lemma getConstantInBase_repeat constant base maxDigits s digits s' :
  getConstantInBase constant base maxDigits s = (Ok digits, s') ->
  getConstantInBase constant base maxDigits s' = (Ok digits, s').
Proof.
  intros H.
  destruct (baseDigitsCache s !! cacheKey constant base maxDigits) as [cached |] eqn:Hc.
  - rewrite (getConstantInBase_hit _ _ _ _ _ Hc) in H. injection H as <- <-.
    apply getConstantInBase_hit, Hc.
  - destruct (constants constant) as [text | |] eqn:Htext.
    + rewrite (getConstantInBase_miss _ _ _ _ _ Hc Htext) in H. injection H as <- <-.
      apply getConstantInBase_hit. cbn. apply lookup_insert_eq.
    + unfold getConstantInBase in H. rewrite Hc, Htext in H. discriminate H.
    + unfold getConstantInBase in H. rewrite Hc, Htext in H. discriminate H.
Qed.

(** *** The cache invariant *)

Lemma cacheInvariant_new source : cacheInvariant (newPiStorage source).
Proof. intros key digits H. cbn in H. rewrite lookup_empty in H. discriminate H. Qed.

Lemma getConstantInBase_invariant constant base maxDigits s :
  cacheInvariant s -> cacheInvariant (snd (getConstantInBase constant base maxDigits s)).
Proof.
  intros Hinv.
  destruct (baseDigitsCache s !! cacheKey constant base maxDigits) as [cached |] eqn:Hc.
  - rewrite (getConstantInBase_hit _ _ _ _ _ Hc). exact Hinv.
  - destruct (constants constant) as [text | |] eqn:Htext.
    + rewrite (getConstantInBase_miss _ _ _ _ _ Hc Htext). cbn.
      intros key digits Hlook. cbn [baseDigitsCache] in Hlook.
      rewrite lookup_insert in Hlook.
      case_decide as Hkey.
      * injection Hlook as <-. exists constant, base, maxDigits, text.
        repeat split; try done.
        -- apply prefix_app_r. reflexivity.
        -- apply Forall_app. split; [| apply randomDigits_decimal].
           rewrite (seedDigits_expansion _ _ _ Htext).
           apply (expansion_chars_are_digits _ _ Htext).
      * apply (Hinv _ _ Hlook).
    + unfold getConstantInBase. rewrite Hc, Htext. exact Hinv.
    + unfold getConstantInBase. rewrite Hc, Htext. exact Hinv.
Qed.

(** On an instance that satisfies the invariant, a constant of the
    table gets an array of decimal digits that starts with its seed. *)
Lemma getConstantInBase_digits constant base maxDigits s text :
  cacheInvariant s ->
  constants constant = Expansion text ->
  exists digits s',
    getConstantInBase constant base maxDigits s = (Ok digits, s') /\
    expansionDigits constant `prefix_of` digits /\
    Forall decimalDigit digits.
Proof.
  intros Hinv Htext.
  destruct (baseDigitsCache s !! cacheKey constant base maxDigits) as [cached |] eqn:Hc.
  - exists cached, s. split; [apply getConstantInBase_hit, Hc |].
    destruct (Hinv _ _ Hc) as (c' & b' & m' & text' & Hkey & Htext' & Hpre & Hdec).
    split; [| exact Hdec].
    assert (c' = constant) as ->.
    { symmetry. apply (cacheKey_constant _ _ _ _ _ _ _ _ Htext Htext' Hkey). }
    rewrite <- (seedDigits_expansion _ b' _ Htext'). exact Hpre.
  - eexists _, _. split; [apply (getConstantInBase_miss _ _ _ _ _ Hc Htext) |].
    rewrite (seedDigits_expansion _ _ _ Htext). split.
    + apply prefix_app_r. reflexivity.
    + apply Forall_app. split; [| apply randomDigits_decimal].
      apply (expansion_chars_are_digits _ _ Htext).
Qed.

(** Whatever the constant, an array that is returned holds decimal
    digits only. *)
Lemma getConstantInBase_decimal constant base maxDigits s digits s' :
  cacheInvariant s ->
  getConstantInBase constant base maxDigits s = (Ok digits, s') ->
  Forall decimalDigit digits.
Proof.
  intros Hinv H.
  destruct (baseDigitsCache s !! cacheKey constant base maxDigits) as [cached |] eqn:Hc.
  - rewrite (getConstantInBase_hit _ _ _ _ _ Hc) in H. injection H as <- <-.
    destruct (Hinv _ _ Hc) as (? & ? & ? & ? & _ & _ & _ & Hdec). exact Hdec.
  - destruct (constants constant) as [text | |] eqn:Htext.
    + destruct (getConstantInBase_digits _ base maxDigits _ _ Hinv Htext)
        as (digits' & s'' & Hrun & _ & Hdec).
      rewrite Hrun in H. injection H as <- <-. exact Hdec.
    + unfold getConstantInBase in H. rewrite Hc, Htext in H. discriminate H.
    + unfold getConstantInBase in H. rewrite Hc, Htext in H. discriminate H.
Qed.

(** *** Every method preserves the invariant *)

Lemma preserves_ret {A} (a : A) : preserves (ret a).
Proof. intros s H. exact H. Qed.

Lemma preserves_throw {A} e : preserves (@throw A e).
Proof. intros s H. exact H. Qed.

Lemma preserves_lift {A} (r : outcome A) : preserves (lift r).
Proof. intros s H. exact H. Qed.

Lemma preserves_bind {A B} (m : M A) (k : A -> M B) :
  preserves m -> (forall a, preserves (k a)) -> preserves (bind m k).
Proof.
  intros Hm Hk s Hs. unfold bind. specialize (Hm s Hs).
  destruct (m s) as [[a | e] s1]; cbn in Hm; [apply Hk, Hm | exact Hm].
Qed.

Lemma preserves_try_catch {A} (body : M A) handler :
  preserves body -> (forall e, preserves (handler e)) -> preserves (try_catch body handler).
Proof.
  intros Hm Hk s Hs. unfold try_catch. specialize (Hm s Hs).
  destruct (body s) as [[a | e] s1]; cbn in Hm; [exact Hm | apply Hk, Hm].
Qed.

Lemma preserves_getConstantInBase constant base maxDigits :
  preserves (getConstantInBase constant base maxDigits).
Proof. intros s. apply getConstantInBase_invariant. Qed.

Create HintDb preserves.
#[local] Hint Resolve preserves_ret preserves_throw preserves_lift
  preserves_bind preserves_try_catch preserves_getConstantInBase : preserves.

(** Splits a computation along its binds and branches. *)
Ltac preserves_steps :=
  repeat first
    [ progress cbv zeta
    | progress intros
    | apply preserves_bind
    | apply preserves_try_catch
    | match goal with
      | |- preserves (match ?x with _ => _ end) => destruct x
      | |- preserves (if ?b then _ else _) => destruct b
      end ];
  auto with preserves.

Lemma preserves_findOptimalSequence message constant base :
  preserves (findOptimalSequence message constant base).
Proof. unfold findOptimalSequence. preserves_steps. Qed.

#[local] Hint Resolve preserves_findOptimalSequence : preserves.

Lemma preserves_tryCandidate message constant base best :
  preserves (tryCandidate message constant base best).
Proof. unfold tryCandidate. preserves_steps. Qed.

#[local] Hint Resolve preserves_tryCandidate : preserves.

Lemma preserves_forBases message constant bases best :
  preserves (forBases message constant bases best).
Proof.
  revert best. induction bases as [| base rest IH]; intros best; cbn [forBases];
    preserves_steps.
Qed.

#[local] Hint Resolve preserves_forBases : preserves.

Lemma preserves_forConstants message names bases best :
  preserves (forConstants message names bases best).
Proof.
  revert best. induction names as [| constant rest IH]; intros best;
    cbn [forConstants]; preserves_steps.
Qed.

#[local] Hint Resolve preserves_forConstants : preserves.

Lemma preserves_encode message : preserves (encode message).
Proof. unfold encode. preserves_steps. Qed.

Lemma preserves_decode constant base start length :
  preserves (decode constant base start length).
Proof. unfold decode. preserves_steps. Qed.

Lemma reachable_invariant s : reachable s -> cacheInvariant s.
Proof.
  induction 1 as [source | s c b m _ IH | s msg c b _ IH | s msg _ IH | s c b st len _ IH].
  - apply cacheInvariant_new.
  - apply preserves_getConstantInBase, IH.
  - apply preserves_findOptimalSequence, IH.
  - apply preserves_encode, IH.
  - apply preserves_decode, IH.
Qed.
(** C7.  On any reachable instance and for any requested length, the
    array that the generator returns for pi in base 10 holds 1, 4, 1, 5
    at positions 1 to 4, the first four fractional digits (position 0
    holds the integer part, 3). *)
Theorem pi_first_fractional_digits (s : PiStorage) (maxDigits : Z) :
  reachable s ->
  exists digits s',
    getConstantInBase "pi" 10 maxDigits s = (Ok digits, s') /\
    digits !! 1%nat = Some 1 /\
    digits !! 2%nat = Some 4 /\
    digits !! 3%nat = Some 1 /\
    digits !! 4%nat = Some 5.
Proof.
  intros Hreach. apply reachable_invariant in Hreach.
  destruct (getConstantInBase_digits "pi" 10 maxDigits s _ Hreach eq_refl)
    as (digits & s' & Hrun & Hprefix & _).
  exists digits, s'. split; [exact Hrun |].
  repeat split; (eapply prefix_lookup_Some; [| exact Hprefix]); reflexivity.
Qed.

Lemma pi_first_fractional_digits_witness :
  exists digits s',
    getConstantInBase "pi" 10 4 (newPiStorage zeros) = (Ok digits, s') /\
    digits !! 1%nat = Some 1 /\
    digits !! 2%nat = Some 4 /\
    digits !! 3%nat = Some 1 /\
    digits !! 4%nat = Some 5.
Proof.
  apply (pi_first_fractional_digits (newPiStorage zeros) 4).
  apply reachable_new.
Defined.

(** ** Sequence locator on the instance *)

Lemma findOptimalSequence_run message constant base s digits s1 :
  getConstantInBase constant base defaultMaxDigits s = (Ok digits, s1) ->
  findOptimalSequence message constant base s
  = (Ok match scan digits message with
        | Some start =>
            Encoding.make constant base start (Z.of_nat (length message)) true
        | None =>
            Encoding.make constant base 0 (Z.of_nat (length message) * 2) false
        end, s1).
Proof.
  intros Hrun. unfold findOptimalSequence, bind, messageToNumbers. rewrite Hrun.
  destruct (scan digits message); reflexivity.
Qed.

Lemma matchHere_elements digits message :
  matchHere digits message = true -> forall m, m ∈ message -> m ∈ digits.
Proof.
  revert digits. induction message as [| m0 ms IH]; intros digits Hmatch m Hm.
  - apply elem_of_nil in Hm. contradiction.
  - destruct digits as [| d ds]; [discriminate Hmatch |].
    cbn [matchHere] in Hmatch. destruct (Z.eqb_spec d m0) as [-> | ]; [| discriminate].
    apply elem_of_cons in Hm as [-> | Hm].
    + apply elem_of_cons. left. reflexivity.
    + apply elem_of_cons. right. apply (IH _ Hmatch _ Hm).
Qed.

(** A message with a code unit of 10 or more is found nowhere in an
    array of decimal digits. *)
Lemma scanFrom_decimal iterations digits message start :
  Forall decimalDigit digits ->
  Exists (fun c => 10 <= c) message ->
  scanFrom iterations digits message start = None.
Proof.
  intros Hdec Hbig. revert digits start Hdec.
  induction iterations as [| n IH]; intros digits start Hdec; [reflexivity |].
  cbn [scanFrom]. destruct (matchHere digits message) eqn:Hmatch.
  - exfalso. apply Exists_exists in Hbig as (c & Hc & Hbig).
    pose proof (matchHere_elements _ _ Hmatch c Hc) as Hin.
    rewrite Forall_forall in Hdec. specialize (Hdec c Hin).
    unfold decimalDigit in Hdec. lia.
  - apply IH. apply Forall_tail, Hdec.
Qed.

(** C4.  On any reachable instance, every array that the generator
    returns holds integers between 0 and 9 only, whatever the base; and
    for a constant of the table, a message with a code unit of 10 or
    more gets [found: false] from [findOptimalSequence], whatever the
    base. *)
Theorem digits_are_decimal (s : PiStorage) (constant : string) (base : Z) :
  reachable s ->
  (forall maxDigits digits s',
      getConstantInBase constant base maxDigits s = (Ok digits, s') ->
      Forall (fun d => 0 <= d <= 9) digits) /\
  (forall message text,
      constants constant = Expansion text ->
      Exists (fun c => 10 <= c) message ->
      exists result s',
        findOptimalSequence message constant base s = (Ok result, s') /\
        Encoding.found result = false).
Proof.
  intros Hreach. apply reachable_invariant in Hreach. split.
  - intros maxDigits digits s' Hrun.
    apply (getConstantInBase_decimal _ _ _ _ _ _ Hreach Hrun).
  - intros message text Htext Hbig.
    destruct (getConstantInBase_digits constant base defaultMaxDigits s _ Hreach Htext)
      as (digits & s' & Hrun & _ & Hdec).
    eexists _, s'. split; [apply (findOptimalSequence_run _ _ _ _ _ _ Hrun) |].
    unfold scan. rewrite (scanFrom_decimal _ _ _ _ Hdec Hbig). reflexivity.
Qed.

Lemma digits_are_decimal_witness :
  (forall maxDigits digits s',
      getConstantInBase "pi" 256 maxDigits (newPiStorage zeros) = (Ok digits, s') ->
      Forall (fun d => 0 <= d <= 9) digits) /\
  (exists result s',
      findOptimalSequence (js "A") "pi" 256 (newPiStorage zeros) = (Ok result, s') /\
      Encoding.found result = false).
Proof.
  destruct (digits_are_decimal (newPiStorage zeros) "pi" 256 (reachable_new zeros))
    as [Hdigits Hunfound].
  split; [exact Hdigits |].
  eapply Hunfound; [reflexivity |].
  apply Exists_cons_hd. vm_compute. discriminate.
Defined.

Example scan_misses_last_window :
  scan [3; 1; 4; 1; 5] [4; 1] = Some 2 /\
  scan [3; 1; 4; 1; 5] [1; 5] = None /\
  scan [3; 1; 4] [3; 1; 4] = None.
Proof. vm_compute. auto. Qed.

(** C9.  The locator only tries the offsets [start] with
    [start + message.length < constantDigits.length]: a tuple with
    [found: true] has such a [start], and a message all of whose
    occurrences in the array reach its last digit (or would pass it, as
    for a message as long as the array) gets [found: false]. *)
Theorem scan_stops_before_last_window
    (message : jsstring) (constant : string) (base : Z)
    (s : PiStorage) (digits : list Z) (s1 : PiStorage) :
  getConstantInBase constant base defaultMaxDigits s = (Ok digits, s1) ->
  exists result,
    findOptimalSequence message constant base s = (Ok result, s1) /\
    (Encoding.found result = true ->
       0 <= Encoding.start result /\
       Encoding.start result + Z.of_nat (length message) < Z.of_nat (length digits) /\
       occursAt digits message (Z.to_nat (Encoding.start result))) /\
    ((forall k, occursAt digits message k ->
                (length digits <= k + length message)%nat) ->
       Encoding.found result = false).
Proof.
  intros Hrun. eexists. split; [apply (findOptimalSequence_run _ _ _ _ _ _ Hrun) |].
  unfold scan. destruct (scanFrom _ digits message 0) as [start |] eqn:Hscan.
  - apply scanFrom_Some in Hscan as (k & Hk & -> & Hocc & _). cbn. split.
    + intros _. rewrite Z.add_0_l, Nat2Z.id. repeat split; [lia | lia | exact Hocc].
    + intros Honly. specialize (Honly k Hocc). lia.
  - cbn. split; [discriminate | reflexivity].
Qed.

Lemma scan_stops_before_last_window_witness :
  exists digits s1 result,
    getConstantInBase "pi" 16 defaultMaxDigits (newPiStorage zeros) = (Ok digits, s1) /\
    findOptimalSequence [1; 4; 1] "pi" 16 (newPiStorage zeros) = (Ok result, s1) /\
    (Encoding.found result = true ->
       0 <= Encoding.start result /\
       Encoding.start result + 3 < Z.of_nat (length digits) /\
       occursAt digits [1; 4; 1] (Z.to_nat (Encoding.start result))) /\
    ((forall k, occursAt digits [1; 4; 1] k ->
                (length digits <= k + 3)%nat) ->
       Encoding.found result = false).
Proof.
  assert (Hrun : exists digits s1,
             getConstantInBase "pi" 16 defaultMaxDigits (newPiStorage zeros)
             = (Ok digits, s1)).
  { eexists _, _. vm_compute. reflexivity. }
  destruct Hrun as (digits & s1 & Hrun).
  exists digits, s1.
  destruct (scan_stops_before_last_window [1; 4; 1] "pi" 16 _ _ _ Hrun)
    as (result & Hfind & Hfound & Honly).
  exists result. repeat split; try assumption; apply Hfound; assumption.
Defined.

(** ** Encoder *)

Lemma Number_toString_valid n radix :
  validRadix radix -> exists text, Number_toString n radix = Ok text.
Proof.
  intros [Hlo Hhi]. unfold Number_toString.
  destruct (Z_le_dec 2 radix); [| lia].
  destruct (Z.gtb_spec radix 36); [lia |].
  destruct (n =? 0); [eauto |]. destruct (n <? 0); eauto.
Qed.

Lemma bestFrom_weaken results more best :
  bestFrom results best -> bestFrom (results ++ more) best.
Proof.
  destruct best as [[r |] [size |]]; cbn; try tauto.
  intros H. apply elem_of_app. left. exact H.
Qed.

(** One candidate: the state moves as [findOptimalSequence] moves it,
    nothing is thrown, and the best tuple stays or becomes the
    candidate's. *)
Lemma tryCandidate_step message constant base best s result s1 results :
  findOptimalSequence message constant base s = (Ok result, s1) ->
  bestFrom results best ->
  exists best',
    tryCandidate message constant base best s = (Ok best', s1) /\
    bestFrom (results ++ [result]) best' /\
    (is_Some (fst best) -> is_Some (fst best')) /\
    (validRadix base -> is_Some (fst best')).
Proof.
  intros Hfind Hbest. unfold tryCandidate, try_catch, bind. rewrite Hfind.
  unfold lift.
  assert (Hkeep : bestFrom (results ++ [result]) best /\
                  (is_Some (fst best) -> is_Some (fst best)))
    by (split; [apply bestFrom_weaken, Hbest | tauto]).
  assert (Hnew : bestFrom (results ++ [result]) (Some result, Some 0) /\
                 is_Some (Some result)).
  { split; [| eauto]. cbn. apply elem_of_app. right.
    apply list_elem_of_singleton. reflexivity. }
  destruct (Number_toString (Encoding.start result) base) as [startText |] eqn:Hs.
  - destruct (Number_toString (Encoding.length result) base) as [lengthText |] eqn:Hl.
    + cbv zeta. destruct (belowBest _ (snd best)) eqn:Hbelow; unfold ret.
      * eexists. split; [reflexivity |]. cbn. repeat split; try apply Hnew; eauto.
      * eexists. split; [reflexivity |]. repeat split; try apply Hkeep.
        intros _. destruct best as [[r |] [size |]]; cbn in *; try tauto; eauto.
        discriminate Hbelow.
    + unfold ret. eexists. split; [reflexivity |]. repeat split; try apply Hkeep.
      intros Hvalid. destruct (Number_toString_valid (Encoding.length result) _ Hvalid).
      congruence.
  - unfold ret. eexists. split; [reflexivity |]. repeat split; try apply Hkeep.
    intros Hvalid. destruct (Number_toString_valid (Encoding.start result) _ Hvalid).
    congruence.
Qed.

(** The two loops of [encode], for any property of states that the
    searches keep and any property of tuples that they establish. *)
Section CandidateLoops.

Variable message : jsstring.
Variable stateInv : PiStorage -> Prop.
Variable tupleProp : Encoding.t -> Prop.

Hypothesis search_step :
  forall constant base s text,
    constants constant = Expansion text ->
    stateInv s ->
    exists result s1,
      findOptimalSequence message constant base s = (Ok result, s1) /\
      tupleProp result /\ stateInv s1.

Lemma forBases_searchBases constant text bases :
  constants constant = Expansion text ->
  forall best results s,
    bestFrom results best ->
    stateInv s ->
    exists best' new s',
      forBases message constant bases best s = (Ok best', s') /\
      searchBases message constant bases s = (Ok new, s') /\
      Forall tupleProp new /\
      stateInv s' /\
      bestFrom (results ++ new) best' /\
      (is_Some (fst best) -> is_Some (fst best')) /\
      (Exists validRadix bases -> is_Some (fst best')).
Proof.
  intros Htext. induction bases as [| base rest IH]; intros best results s Hbest Hinv.
  - exists best, [], s. cbn. rewrite app_nil_r. repeat split; auto.
    intros H. apply Exists_nil in H. contradiction.
  - destruct (search_step constant base s _ Htext Hinv)
      as (result & s1 & Hfind & Hprop & Hinv1).
    destruct (tryCandidate_step _ _ _ _ _ _ _ _ Hfind Hbest)
      as (best1 & Htry & Hbest1 & Hkeep1 & Hvalid1).
    destruct (IH best1 (results ++ [result]) s1 Hbest1 Hinv1)
      as (best' & new & s' & Hfor & Hsearch & Hprops & Hinv' & Hbest' & Hkeep & Hvalid).
    exists best', (result :: new), s'. cbn [forBases searchBases]. unfold bind.
    rewrite Htry, Hfor, Hfind, Hsearch. repeat split.
    + constructor; assumption.
    + exact Hinv'.
    + rewrite <- app_assoc in Hbest'. exact Hbest'.
    + auto.
    + intros Hex. apply Exists_cons in Hex as [Hhere | Hlater]; auto.
Qed.

Lemma forConstants_searchConstants names bases :
  Forall (fun constant => exists text, constants constant = Expansion text) names ->
  forall best results s,
    bestFrom results best ->
    stateInv s ->
    exists best' new s',
      forConstants message names bases best s = (Ok best', s') /\
      searchConstants message names bases s = (Ok new, s') /\
      Forall tupleProp new /\
      stateInv s' /\
      bestFrom (results ++ new) best' /\
      (is_Some (fst best) -> is_Some (fst best')) /\
      (names <> [] -> Exists validRadix bases -> is_Some (fst best')).
Proof.
  induction 1 as [| constant rest [text Htext] _ IH]; intros best results s Hbest Hinv.
  - exists best, [], s. cbn. rewrite app_nil_r. repeat split; auto. congruence.
  - destruct (forBases_searchBases constant text bases Htext best results s Hbest Hinv)
      as (best1 & new1 & s1 & Hfor1 & Hsearch1 & Hprops1 & Hinv1 & Hbest1 & Hkeep1 & Hvalid1).
    destruct (IH best1 (results ++ new1) s1 Hbest1 Hinv1)
      as (best' & new & s' & Hfor & Hsearch & Hprops & Hinv' & Hbest' & Hkeep & _).
    exists best', (new1 ++ new), s'. cbn [forConstants searchConstants]. unfold bind.
    rewrite Hfor1, Hfor, Hsearch1, Hsearch. repeat split.
    + apply Forall_app. split; assumption.
    + exact Hinv'.
    + rewrite <- app_assoc in Hbest'. exact Hbest'.
    + auto.
    + auto.
Qed.

(** For a non-empty message [encode] never throws: it returns one of
    the tuples of the searches it performed. *)
Lemma encode_returns_a_search_result s :
  message <> [] ->
  stateInv s ->
  exists result results s',
    encode message s = (Ok result, s') /\
    candidateSearches message s = (Ok results, s') /\
    result ∈ results /\
    Forall tupleProp results /\
    stateInv s'.
Proof.
  intros Hne Hinv. unfold encode, candidateSearches.
  destruct (Z.eqb_spec (Z.of_nat (length message)) 0) as [Hlen | _].
  { destruct message; [congruence | cbn in Hlen; lia]. }
  cbv zeta.
  destruct (forConstants_searchConstants ["pi"; "e"; "phi"]%string [16; 32; 64; 256])
    with (best := (@None Encoding.t, @None Z)) (results := @nil Encoding.t) (s := s)
    as (best' & new & s' & Hfor & Hsearch & Hprops & Hinv' & Hbest' & _ & Hsome).
  { repeat constructor; eexists; reflexivity. }
  { exact I. }
  { exact Hinv. }
  unfold bind. rewrite Hfor.
  destruct Hsome as [result Hresult].
  { discriminate. }
  { apply Exists_cons_hd. unfold validRadix. lia. }
  rewrite Hresult. exists result, new, s'. repeat split; try assumption.
  destruct best' as [[r |] [size |]]; cbn in *; try tauto; congruence.
Qed.

End CandidateLoops.

(** On any instance, a search for a constant of the table returns a
    tuple, and an unfound one has the fallback shape. *)
Lemma search_fallbackShape message constant base s text :
  constants constant = Expansion text ->
  True ->
  exists result s1,
    findOptimalSequence message constant base s = (Ok result, s1) /\
    fallbackShape message result /\ True.
Proof.
  intros Htext _.
  destruct (getConstantInBase_known constant base defaultMaxDigits s _ Htext)
    as (digits & s1 & Hrun).
  eexists _, s1. split; [apply (findOptimalSequence_run _ _ _ _ _ _ Hrun) |].
  split; [| exact I].
  unfold fallbackShape. destruct (scan digits message); cbn; [discriminate | auto].
Qed.

(** On an instance that satisfies the cache invariant, a found tuple has
    the found shape, and the invariant is kept. *)
Lemma search_foundShape message constant base s text :
  constants constant = Expansion text ->
  cacheInvariant s ->
  exists result s1,
    findOptimalSequence message constant base s = (Ok result, s1) /\
    foundShape message result /\ cacheInvariant s1.
Proof.
  intros Htext Hinv.
  destruct (getConstantInBase_digits constant base defaultMaxDigits s _ Hinv Htext)
    as (digits & s1 & Hrun & Hprefix & Hdec).
  eexists _, s1. split; [apply (findOptimalSequence_run _ _ _ _ _ _ Hrun) |].
  split.
  - unfold foundShape, scan.
    destruct (scanFrom _ digits message 0) as [start |] eqn:Hscan; cbn; [| discriminate].
    intros _. apply scanFrom_Some in Hscan as (k & _ & -> & Hocc & _).
    exists digits, text. rewrite Z.add_0_l, Nat2Z.id.
    repeat split; try assumption. lia.
  - pose proof (getConstantInBase_invariant constant base defaultMaxDigits s Hinv) as H.
    rewrite Hrun in H. exact H.
Qed.

(** C2, as the code has it.  For a non-empty message [encode] does not
    fail when no candidate search finds the message: it returns the
    locator's fallback tuple, with [found: false], start 0 and twice the
    message length; it does not return a tuple with [found: true]. *)
Theorem encode_unfound_returns_fallback (message : jsstring) (s : PiStorage) :
  message <> [] ->
  exists results result s',
    candidateSearches message s = (Ok results, s') /\
    encode message s = (Ok result, s') /\
    (Forall (fun r => Encoding.found r = false) results ->
       Encoding.found result = false /\
       Encoding.start result = 0 /\
       Encoding.length result = Z.of_nat (length message) * 2).
Proof.
  intros Hne.
  destruct (encode_returns_a_search_result message (fun _ => True)
              (fallbackShape message) (search_fallbackShape message) s Hne I)
    as (result & results & s' & Hencode & Hsearch & Hin & Hshapes & _).
  exists results, result, s'.
  split; [exact Hsearch |]. split; [exact Hencode |].
  intros Hall. rewrite Forall_forall in Hall, Hshapes.
  pose proof (Hall _ Hin) as Hunfound.
  destruct (Hshapes _ Hin Hunfound) as [Hstart Hlength]. auto.
Qed.

Lemma encode_unfound_returns_fallback_witness :
  exists result s',
    encode (js "A") (newPiStorage zeros) = (Ok result, s') /\
    Encoding.found result = false /\
    Encoding.start result = 0 /\
    Encoding.length result = 2.
Proof.
  destruct (encode_unfound_returns_fallback (js "A") (newPiStorage zeros))
    as (results & result & s' & Hsearch & Hencode & Hfallback).
  { discriminate. }
  exists result, s'. split; [exact Hencode |].
  apply Hfallback.
  apply (f_equal fst) in Hsearch. cbn [fst] in Hsearch.
  vm_compute in Hsearch. injection Hsearch as <-.
  repeat constructor.
Defined.

(** C2, as stated, fails: for the message "A" no candidate search finds
    the sequence, and [encode] returns a tuple instead of failing. *)
Lemma encode_unfound_does_not_fail :
  (exists results,
      fst (candidateSearches (js "A") (newPiStorage zeros)) = Ok results /\
      Forall (fun r => Encoding.found r = false) results) /\
  fst (encode (js "A") (newPiStorage zeros)) = Ok (Encoding.make "pi" 16 0 2 false).
Proof.
  split.
  - eexists. split; [vm_compute; reflexivity |]. repeat constructor.
  - vm_compute. reflexivity.
Qed.

(** ** Decoder *)

(** C6, as stated, fails: a negative [start] is accepted and gives the
    empty message, and bases below 2 or above 65536 are accepted. *)
Lemma decode_accepts_negative_start_and_any_base :
  fst (decode "pi" 10 (-1) 3 (newPiStorage zeros)) = Ok [] /\
  fst (decode "pi" 1 0 3 (newPiStorage zeros)) = Ok [3; 1; 4] /\
  fst (decode "pi" 70000 0 3 (newPiStorage zeros)) = Ok [3; 1; 4].
Proof. repeat split; vm_compute; reflexivity. Qed.

Lemma decode_run constant base start length s text digits s' :
  constants constant = Expansion text ->
  getConstantInBase constant base (start + length) s = (Ok digits, s') ->
  decode constant base start length s
  = (Ok (numbersToMessage (slice digits start (start + length))), s').
Proof.
  intros Htext Hrun. unfold decode, bind. rewrite Htext, Hrun. reflexivity.
Qed.

(** C6, as the code has it.  [decode] checks the constant and nothing
    else: a name that is no property of the table fails with "Unknown
    constant"; a constant of the table gets a message for every base,
    start and length.  In particular [decode("pi", 10, -1, 3)] returns
    the empty message and [decode("xi", 10, 0, 3)] fails with "Unknown
    constant". *)
Theorem decode_checks_the_constant_only
    (s : PiStorage) (constant : string) (base start length : Z) :
  reachable s ->
  (constants constant = Undefined ->
     decode constant base start length s = (Throw UnknownConstant, s)) /\
  (forall text, constants constant = Expansion text ->
     exists message s', decode constant base start length s = (Ok message, s')) /\
  fst (decode "pi" 10 (-1) 3 s) = Ok [] /\
  decode "xi" 10 0 3 s = (Throw UnknownConstant, s).
Proof.
  intros Hreach. apply reachable_invariant in Hreach.
  split; [| split; [| split]].
  - intros Hundef. unfold decode. rewrite Hundef. reflexivity.
  - intros text Htext.
    destruct (getConstantInBase_known constant base (start + length) s _ Htext)
      as (digits & s' & Hrun).
    eexists _, _. apply (decode_run _ _ _ _ _ _ _ _ Htext Hrun).
  - destruct (getConstantInBase_digits "pi" 10 2 s _ Hreach eq_refl)
      as (digits & s' & Hrun & Hprefix & _).
    apply prefix_length in Hprefix.
    rewrite (proj2 (expansion_chars_are_digits "pi" _ eq_refl)) in Hprefix.
    rewrite (decode_run "pi" 10 (-1) 3 s _ digits s' eq_refl Hrun).
    unfold slice. cbn [fst]. change (-1 + 3) with 2.
    change (-1 <? 0) with true. change (2 <? 0) with false. cbv iota.
    replace (Z.to_nat _) with 0%nat by lia. reflexivity.
  - reflexivity.
Qed.

Lemma decode_checks_the_constant_only_witness :
  decode "xi" 16 0 3 (newPiStorage zeros)
  = (Throw UnknownConstant, newPiStorage zeros) /\
  exists message s', decode "e" 0 (-2) 5 (newPiStorage zeros) = (Ok message, s').
Proof.
  split.
  - destruct (decode_checks_the_constant_only (newPiStorage zeros) "xi" 16 0 3
                (reachable_new zeros)) as (Hunknown & _).
    apply Hunknown. reflexivity.
  - destruct (decode_checks_the_constant_only (newPiStorage zeros) "e" 0 (-2) 5
                (reachable_new zeros)) as (_ & Hknown & _).
    eapply Hknown. reflexivity.
Defined.

(** ** Round trip inside the seed *)

Lemma message_codec_roundtrip message :
  Forall code_unit message ->
  numbersToMessage (messageToNumbers message) = message.
Proof.
  unfold numbersToMessage, messageToNumbers, fromCharCode, code_unit.
  induction 1 as [| c rest Hc _ IH]; [reflexivity |].
  cbn [map]. rewrite IH, Z.mod_small by exact Hc. reflexivity.
Qed.

Lemma decimalDigit_code_unit d : decimalDigit d -> code_unit d.
Proof. unfold decimalDigit, code_unit. lia. Qed.

(** Within bounds [slice] is [take] after [drop]. *)
Lemma slice_inside {A} (array : list A) start finish :
  0 <= start <= finish -> finish <= Z.of_nat (length array) ->
  slice array start finish
  = take (Z.to_nat finish - Z.to_nat start) (drop (Z.to_nat start) array).
Proof.
  intros Hstart Hfinish. unfold slice.
  destruct (Z.ltb_spec start 0); [lia |].
  destruct (Z.ltb_spec finish 0); [lia |].
  rewrite !Z.min_l by lia. f_equal. lia.
Qed.

(** An occurrence that ends inside the seed of one array of a constant
    is an occurrence in every array of that constant. *)
Lemma occursAt_seed constant text digits digits' message k :
  constants constant = Expansion text ->
  expansionDigits constant `prefix_of` digits ->
  expansionDigits constant `prefix_of` digits' ->
  (k + length message <= 101)%nat ->
  occursAt digits message k -> occursAt digits' message k.
Proof.
  intros Htext Hpre Hpre' Hin Hocc i Hi.
  pose proof (proj2 (expansion_chars_are_digits _ _ Htext)) as Hlen.
  assert (Hseed : (k + i < length (expansionDigits constant))%nat) by lia.
  rewrite <- (Hocc i Hi).
  rewrite <- (prefix_lookup_lt _ _ _ Hseed Hpre).
  rewrite <- (prefix_lookup_lt _ _ _ Hseed Hpre').
  reflexivity.
Qed.

Lemma occursAt_take_drop digits message k :
  occursAt digits message k ->
  take (length message) (drop k digits) = message.
Proof.
  intros Hocc. apply list_eq. intros i.
  destruct (Nat.lt_ge_cases i (length message)) as [Hi | Hi].
  - rewrite lookup_take_lt, lookup_drop by exact Hi. apply Hocc, Hi.
  - rewrite lookup_take_ge by exact Hi. symmetry. apply lookup_ge_None, Hi.
Qed.

Lemma occursAt_decimal digits message k :
  Forall decimalDigit digits -> occursAt digits message k ->
  Forall decimalDigit message.
Proof.
  intros Hdec Hocc. apply Forall_lookup. intros i m Hm.
  assert (Hi : (i < length message)%nat) by (apply lookup_lt_is_Some; eauto).
  rewrite <- (Hocc i Hi) in Hm. apply (Forall_lookup_1 _ _ _ _ Hdec Hm).
Qed.

(** On a reachable instance, a tuple that [encode] returns with
    [found: true] and that ends within the 101 seed digits decodes to
    the message. *)
Lemma roundtrip_inside_seed message s tuple s' :
  reachable s ->
  encode message s = (Ok tuple, s') ->
  Encoding.found tuple = true ->
  Encoding.start tuple + Encoding.length tuple <= 101 ->
  exists s'',
    decode (Encoding.constant tuple) (Encoding.base tuple)
           (Encoding.start tuple) (Encoding.length tuple) s'
    = (Ok message, s'').
Proof.
  intros Hreach Hencode Hfound Hseed.
  assert (Hne : message <> []).
  { intros ->. cbn in Hencode. discriminate Hencode. }
  destruct (encode_returns_a_search_result message cacheInvariant
              (foundShape message) (search_foundShape message) s Hne
              (reachable_invariant _ Hreach))
    as (result & results & s1 & Hencode' & _ & Hin & Hshapes & Hinv').
  rewrite Hencode in Hencode'. injection Hencode' as <- <-.
  rewrite Forall_forall in Hshapes.
  destruct (Hshapes _ Hin Hfound)
    as (digits & text & Htext & Hpre & Hdec & Hstart & Hocc & Hlength).
  destruct (getConstantInBase_digits (Encoding.constant tuple) (Encoding.base tuple)
              (Encoding.start tuple + Encoding.length tuple) s' _ Hinv' Htext)
    as (digits' & s'' & Hrun & Hpre' & _).
  exists s''. rewrite (decode_run _ _ _ _ _ _ _ _ Htext Hrun). do 2 f_equal.
  assert (Hocc' : occursAt digits' message (Z.to_nat (Encoding.start tuple))).
  { apply (occursAt_seed _ _ _ _ _ _ Htext Hpre Hpre'); [lia | exact Hocc]. }
  pose proof (prefix_length _ _ Hpre') as Hlen'.
  rewrite (proj2 (expansion_chars_are_digits _ _ Htext)) in Hlen'.
  rewrite slice_inside by lia.
  replace (Z.to_nat (Encoding.start tuple + Encoding.length tuple)
           - Z.to_nat (Encoding.start tuple))%nat with (length message) by lia.
  rewrite (occursAt_take_drop _ _ _ Hocc').
  apply (message_codec_roundtrip message).
  eapply Forall_impl; [apply (occursAt_decimal _ _ _ Hdec Hocc) |].
  apply decimalDigit_code_unit.
Qed.

(** ** Random filler: the defect behind C1, C3 and C5 *)

(** C3.  The claim is that the generator is a deterministic function of
    its arguments.  Two fresh instances asked for 102 digits of pi in
    base 10 return arrays that differ in the last digit, which is
    whatever [Math.random] gave to each. *)
Theorem generator_follows_random_outcomes :
  fst (getConstantInBase "pi" 10 102 (newPiStorage zeros))
  = Ok (expansionDigits "pi" ++ [0]) /\
  fst (getConstantInBase "pi" 10 102 (newPiStorage ones))
  = Ok (expansionDigits "pi" ++ [1]).
Proof. split; vm_compute; reflexivity. Qed.

(** C5.  The claim is that a longer request extends the shorter one.
    On one instance, 104 digits and then 105 digits of pi are cached
    under different keys and filled by separate draws: positions 101 to
    103 hold 0, 0, 0 in the first array and 1, 1, 1 in the second. *)
Theorem longer_request_redraws_digits :
  let s0 := newPiStorage (zerosThenOnes 3) in
  let first := getConstantInBase "pi" 10 104 s0 in
  let second := getConstantInBase "pi" 10 105 (snd first) in
  fst first = Ok (expansionDigits "pi" ++ [0; 0; 0]) /\
  fst second = Ok (expansionDigits "pi" ++ [1; 1; 1; 1]).
Proof. split; vm_compute; reflexivity. Qed.

(** The twelve arrays that one [encode] fills take 12 * (10000 - 101)
    random draws. *)
Example encode_draws :
  randomCalls (snd (encode [0; 0; 0] (newPiStorage (zerosThenOnes 118788))))
  = 118788%N.
Proof. vm_compute. reflexivity. Qed.

(** C1.  The claim is that decoding a tuple that [encode] returned with
    [found: true] gives the message back.  Here the three code units 0,
    0, 0 are found at offset 101 of the 10000 digits drawn for
    (pi, 16); [decode] then asks for 104 digits, gets three fresh draws
    at positions 101 to 103, and returns the code units 1, 1, 1. *)
Theorem roundtrip_lost_beyond_seed :
  let s0 := newPiStorage (zerosThenOnes 118788) in
  let message := [0; 0; 0] in
  let encoded := encode message s0 in
  fst encoded = Ok (Encoding.make "pi" 16 101 3 true) /\
  fst (decode "pi" 16 101 3 (snd encoded)) = Ok [1; 1; 1].
Proof. split; vm_compute; reflexivity. Qed.

(** Inside the seed the round trip holds ([roundtrip_inside_seed]): there
    the digits that [decode] reads are the table's, not random ones. *)
Example roundtrip_inside_seed_example :
  let s0 := newPiStorage ones in
  let encoded := encode [1; 4; 1] s0 in
  fst encoded = Ok (Encoding.make "pi" 16 1 3 true) /\
  fst (decode "pi" 16 1 3 (snd encoded)) = Ok [1; 4; 1].
Proof. split; vm_compute; reflexivity. Qed.

(** A found tuple can lose against a fallback tuple: with the message
    found at offset 101 for (pi, 16) only, the fallback of (pi, 32) has
    the shorter rendering and is what [encode] returns. *)
Example encode_prefers_short_fallback :
  fst (findOptimalSequence [0; 0; 0] "pi" 16 (newPiStorage (zerosThenOnes 3)))
  = Ok (Encoding.make "pi" 16 101 3 true) /\
  fst (encode [0; 0; 0] (newPiStorage (zerosThenOnes 3)))
  = Ok (Encoding.make "pi" 32 0 6 false).
Proof. split; vm_compute; reflexivity. Qed.

(** * Further properties of the code *)

(** ** Base codec *)



Lemma numberToBase_loop_Forall (P : Z -> Prop) base Hbase :
  (forall d, 0 <= d < base -> P (digitChar base d)) ->
  forall number, 0 <= number -> forall acc,
    Forall P acc -> Forall P (numberToBase_loop base Hbase number acc).
Proof.
  intros HP number Hn. pattern number.
  apply Zlt_0_ind; [| exact Hn]. clear number Hn.
  intros number IH Hn acc Hacc.
  destruct (Z_lt_dec 0 number) as [Hpos | Hzero].
  - rewrite numberToBase_loop_positive by exact Hpos.
    apply IH.
    + split; [apply Z.div_pos; lia | apply Z.div_lt; lia].
    + constructor; [| exact Hacc]. apply HP, Z.mod_pos_bound. lia.
  - rewrite numberToBase_loop_done by lia. exact Hacc.
Qed.

Lemma numberToBase_loop_head base Hbase :
  base <= 65536 ->
  forall number, 0 < number -> forall acc,
    exists char rest,
      numberToBase_loop base Hbase number acc = char :: rest /\
      nonzeroDigit base char.
Proof.
  intros Hmax number Hn. assert (Hn0 : 0 <= number) by lia. revert Hn.
  pattern number. apply Zlt_0_ind; [| exact Hn0]. clear number Hn0.
  intros number IH _ Hpos acc.
  rewrite numberToBase_loop_positive by exact Hpos.
  destruct (Z_lt_dec 0 (number / base)) as [Hq | Hq].
  - apply IH; [| exact Hq]. split; [lia | apply Z.div_lt; lia].
  - rewrite numberToBase_loop_done by lia.
    eexists _, _. split; [reflexivity |].
    exists (number mod base). split.
    + apply charValue_digitChar; [lia | apply Z.mod_pos_bound; lia].
    + assert (number / base = 0) by (pose proof (Z.div_pos number base); lia).
      pose proof (Z.div_mod number base). lia.
Qed.

(** X2.  For a value above zero and a base from 2 to 65536,
    [numberToBase] returns a text whose every character is a digit
    below the base as [baseToNumber] reads it, and whose first character
    is not the digit zero; in a base up to 36 the characters are decimal
    digits and capital letters. *)
Theorem numberToBase_digits (value base : Z) :
  0 < value -> 2 <= base <= 65536 ->
  exists char rest,
    numberToBase value base = Ok (char :: rest) /\
    nonzeroDigit base char /\
    Forall (digitOf base) (char :: rest) /\
    (base <= 36 ->
     Forall (fun c => 48 <= c <= 57 \/ 65 <= c <= 90) (char :: rest)).
Proof.
  intros Hv Hb. unfold numberToBase.
  destruct (Z_le_dec 2 base) as [Hbase | ]; [| lia].
  destruct (Z.gtb_spec base 65536); [lia |].
  destruct (Z.eqb_spec value 0); [lia |].
  destruct (numberToBase_loop_head base Hbase ltac:(lia) value Hv [])
    as (char & rest & Hloop & Hhead).
  exists char, rest. rewrite Hloop. repeat split; try assumption.
  - rewrite <- Hloop. apply numberToBase_loop_Forall; [| lia | constructor].
    intros d Hd. exists d. split; [apply charValue_digitChar; lia | lia].
  - intros H36. rewrite <- Hloop.
    apply numberToBase_loop_Forall; [| lia | constructor].
    intros d Hd. unfold digitChar, fromCharCode.
    destruct (Z.leb_spec base 36); [| lia].
    destruct (Z.ltb_spec d 10); [lia |].
    rewrite Z.mod_small by lia. lia.
Qed.

Lemma numberToBase_digits_witness :
  exists char rest,
    numberToBase 255 16 = Ok (char :: rest) /\
    nonzeroDigit 16 char /\
    Forall (digitOf 16) (char :: rest) /\
    (16 <= 36 ->
     Forall (fun c => 48 <= c <= 57 \/ 65 <= c <= 90) (char :: rest)).
Proof. apply (numberToBase_digits 255 16); lia. Defined.

Lemma charValue_alphanumeric base char :
  base <= 36 -> alphanumeric char ->
  exists value, charValue base char = Ok value /\ 0 <= value <= 35.
Proof.
  intros H36 Hchar. unfold charValue.
  destruct (Z.leb_spec base 36); [| lia].
  destruct (Z.leb_spec 48 char), (Z.leb_spec char 57); cbn [andb];
    try (eexists; split; [reflexivity | lia]);
    destruct (Z.leb_spec 65 char), (Z.leb_spec char 90); cbn [andb];
    try (eexists; split; [reflexivity | lia]);
    destruct (Z.leb_spec 97 char), (Z.leb_spec char 122); cbn [andb];
    try (eexists; split; [reflexivity | lia]);
    unfold alphanumeric in Hchar; lia.
Qed.

Lemma charValue_not_alphanumeric base char :
  base <= 36 -> ~ alphanumeric char -> charValue base char = Throw InvalidCharacter.
Proof.
  intros H36 Hchar. unfold charValue, alphanumeric in *.
  destruct (Z.leb_spec base 36); [| lia].
  destruct (Z.leb_spec 48 char), (Z.leb_spec char 57); cbn [andb]; try lia;
    destruct (Z.leb_spec 65 char), (Z.leb_spec char 90); cbn [andb]; try lia;
    destruct (Z.leb_spec 97 char), (Z.leb_spec char 122); cbn [andb]; try lia;
    reflexivity.
Qed.

Lemma baseToNumber_loop_alphanumeric base string :
  base <= 36 ->
  forall result,
    (Forall alphanumeric string ->
     exists value, baseToNumber_loop base string result = Ok value) /\
    (~ Forall alphanumeric string ->
     baseToNumber_loop base string result = Throw InvalidCharacter).
Proof.
  intros H36. induction string as [| char rest IH]; intros result.
  - split; [eauto |]. intros H. exfalso. apply H. constructor.
  - cbn [baseToNumber_loop]. split.
    + intros Hall. apply Forall_cons in Hall as [Hchar Hrest].
      destruct (charValue_alphanumeric base char H36 Hchar) as (value & -> & _).
      apply IH, Hrest.
    + intros Hnot.
      assert (Hdec : alphanumeric char \/ ~ alphanumeric char)
        by (unfold alphanumeric; lia).
      destruct Hdec as [Hchar | Hchar].
      * destruct (charValue_alphanumeric base char H36 Hchar) as (value & -> & _).
        apply IH. intros Hrest. apply Hnot. constructor; assumption.
      * rewrite (charValue_not_alphanumeric _ _ H36 Hchar). reflexivity.
Qed.

Lemma baseToNumber_loop_high base string :
  36 < base -> forall result,
    exists value, baseToNumber_loop base string result = Ok value.
Proof.
  intros H36. induction string as [| char rest IH]; intros result; [cbn; eauto |].
  cbn [baseToNumber_loop]. unfold charValue.
  destruct (Z.leb_spec base 36); [lia |]. apply IH.
Qed.

(** X3.  How [baseToNumber] fails.  The base is checked first: outside
    2..65536 the call throws "Base must be between 2 and 65536" whatever
    the text.  In a base up to 36 it throws "Invalid character" exactly
    when some character is not a decimal digit or a letter, and a digit
    that is not below the base is not rejected.  In a base above 36 it
    never throws. *)
Theorem baseToNumber_failures (string : jsstring) (base : Z) :
  (base < 2 \/ 65536 < base -> baseToNumber string base = Throw InvalidBase) /\
  (2 <= base <= 36 -> Forall alphanumeric string ->
     exists value, baseToNumber string base = Ok value) /\
  (2 <= base <= 36 -> ~ Forall alphanumeric string ->
     baseToNumber string base = Throw InvalidCharacter) /\
  (36 < base <= 65536 -> exists value, baseToNumber string base = Ok value).
Proof.
  unfold baseToNumber, base_out_of_range. split; [| split; [| split]].
  - intros Hout. destruct (Z.ltb_spec base 2), (Z.gtb_spec base 65536);
      cbn [orb]; try reflexivity; lia.
  - intros Hb Hall. destruct (Z.ltb_spec base 2), (Z.gtb_spec base 65536);
      cbn [orb]; try lia.
    apply baseToNumber_loop_alphanumeric; [lia | exact Hall].
  - intros Hb Hnot. destruct (Z.ltb_spec base 2), (Z.gtb_spec base 65536);
      cbn [orb]; try lia.
    apply baseToNumber_loop_alphanumeric; [lia | exact Hnot].
  - intros Hb. destruct (Z.ltb_spec base 2), (Z.gtb_spec base 65536);
      cbn [orb]; try lia.
    apply baseToNumber_loop_high. lia.
Qed.

Lemma baseToNumber_failures_witness :
  baseToNumber (js "12") 1 = Throw InvalidBase /\
  (exists value, baseToNumber (js "Z9") 2 = Ok value) /\
  baseToNumber (js "1_0") 10 = Throw InvalidCharacter /\
  (exists value, baseToNumber (js "1_0") 256 = Ok value).
Proof.
  split; [| split; [| split]].
  - apply (proj1 (baseToNumber_failures (js "12") 1)). lia.
  - apply (proj1 (proj2 (baseToNumber_failures (js "Z9") 2))); [lia |].
    repeat constructor; unfold alphanumeric; cbn; lia.
  - apply (proj1 (proj2 (proj2 (baseToNumber_failures (js "1_0") 10)))); [lia |].
    intros Hall. apply Forall_cons in Hall as [_ Hall].
    apply Forall_cons in Hall as [Hchar _].
    unfold alphanumeric in Hchar. cbn in Hchar. lia.
  - apply (proj2 (proj2 (proj2 (baseToNumber_failures (js "1_0") 256)))). lia.
Defined.





Lemma charValue_lowerLetter base char :
  base <= 36 -> charValue base (lowerLetter char) = charValue base char.
Proof.
  intros H36. unfold lowerLetter.
  destruct (Z.leb_spec 65 char), (Z.leb_spec char 90); cbn [andb]; try reflexivity.
  unfold charValue. destruct (Z.leb_spec base 36); [| lia].
  replace ((48 <=? char + 32) && (char + 32 <=? 57)) with false
    by (symmetry; apply andb_false_iff; right; lia).
  replace ((65 <=? char + 32) && (char + 32 <=? 90)) with false
    by (symmetry; apply andb_false_iff; right; lia).
  replace ((97 <=? char + 32) && (char + 32 <=? 122)) with true
    by (symmetry; apply andb_true_intro; split; lia).
  replace ((48 <=? char) && (char <=? 57)) with false
    by (symmetry; apply andb_false_iff; right; lia).
  replace ((65 <=? char) && (char <=? 90)) with true
    by (symmetry; apply andb_true_intro; split; lia).
  f_equal. lia.
Qed.

(** X5.  In a base up to 36 [baseToNumber] does not see the case of
    letters: a text and the same text with its capital letters made
    small have the same outcome. *)
Theorem baseToNumber_ignores_case (string : jsstring) (base : Z) :
  base <= 36 ->
  baseToNumber (map lowerLetter string) base = baseToNumber string base.
Proof.
  intros H36. unfold baseToNumber. destruct (base_out_of_range base); [reflexivity |].
  generalize 0 as result.
  induction string as [| char rest IH]; intros result; [reflexivity |].
  cbn [map baseToNumber_loop]. rewrite (charValue_lowerLetter _ _ H36).
  destruct (charValue base char); [apply IH | reflexivity].
Qed.

Lemma baseToNumber_ignores_case_witness :
  baseToNumber (js "ff") 16 = baseToNumber (js "FF") 16.
Proof. apply (baseToNumber_ignores_case (js "FF") 16). lia. Defined.

(** ** Message codec *)

(** X6.  A message goes through [messageToNumbers] and
    [numbersToMessage] unchanged. *)
Theorem messageToNumbers_numbersToMessage (message : jsstring) :
  Forall code_unit message ->
  numbersToMessage (messageToNumbers message) = message.
Proof. apply message_codec_roundtrip. Qed.

Lemma messageToNumbers_numbersToMessage_witness :
  numbersToMessage (messageToNumbers (js "Hi!")) = js "Hi!".
Proof.
  apply (messageToNumbers_numbersToMessage (js "Hi!")).
  repeat constructor; unfold code_unit; cbn; lia.
Defined.

(** X7.  The other way round, numbers survive [numbersToMessage] and
    [messageToNumbers] exactly when each of them is a code unit (0 to
    65535); whatever the numbers, the message is made of code units and
    has one of them per number. *)
Theorem numbersToMessage_messageToNumbers (numbers : list Z) :
  (messageToNumbers (numbersToMessage numbers) = numbers <-> Forall code_unit numbers) /\
  Forall code_unit (numbersToMessage numbers) /\
  length (numbersToMessage numbers) = length numbers.
Proof.
  unfold messageToNumbers, numbersToMessage, fromCharCode, code_unit.
  repeat split.
  - induction numbers as [| n rest IH]; [constructor |].
    cbn [map]. intros Heq. injection Heq as Hn Hrest.
    constructor; [| apply IH, Hrest].
    pose proof (Z.mod_pos_bound n 65536). lia.
  - induction 1 as [| n rest Hn _ IH]; [reflexivity |].
    cbn [map]. rewrite IH, Z.mod_small by lia. reflexivity.
  - apply Forall_forall. intros c Hc. apply list_elem_of_In, in_map_iff in Hc
      as (n & <- & _). apply Z.mod_pos_bound. lia.
  - apply length_map.
Qed.

(** ** Cache keys *)

Lemma string_app_assoc (a b c : string) : (a +:+ b) +:+ c = a +:+ (b +:+ c).
Proof.
  induction a as [| x a IH]; [reflexivity |].
  change (String x ((a +:+ b) +:+ c) = String x (a +:+ (b +:+ c))).
  f_equal. exact IH.
Qed.

Lemma underscoreFree_separator (x y : string) :
  ~ underscoreFree (x +:+ String "_" y).
Proof.
  induction x as [| c x IH]; cbn; intros [Hc Hrest]; [congruence | auto].
Qed.

(** A text is cut at its last underscore in one way only. *)
Lemma cut_at_last_underscore (x x' y y' : string) :
  underscoreFree y -> underscoreFree y' ->
  x +:+ String "_" y = x' +:+ String "_" y' ->
  x = x' /\ y = y'.
Proof.
  intros Hy Hy'. revert x'. induction x as [| c x IH]; intros [| c' x'] Heq; cbn in Heq.
  - injection Heq as ->. auto.
  - injection Heq as <- ->. destruct (underscoreFree_separator _ _ Hy).
  - injection Heq as -> <-. destruct (underscoreFree_separator _ _ Hy').
  - injection Heq as -> Heq. destruct (IH _ Heq) as [-> ->]. auto.
Qed.

Lemma pretty_N_go_underscoreFree (x : N) (s : string) :
  underscoreFree s -> underscoreFree (pretty_N_go x s).
Proof.
  revert s. induction (N.lt_wf_0 x) as [x _ IH]; intros s Hs.
  destruct (N.eq_dec x 0%N) as [-> | Hx]; [exact Hs |].
  rewrite pretty_N_go_step by lia. apply IH.
  - apply N.div_lt; lia.
  - split; [| exact Hs]. unfold pretty_N_char. repeat case_match; discriminate.
Qed.

Lemma pretty_Z_underscoreFree (z : Z) : underscoreFree (pretty z).
Proof.
  assert (HN : forall p, underscoreFree (pretty (Npos p))).
  { intros p. unfold pretty, pretty_N. case_decide; [cbn; split; [discriminate | exact I] |].
    apply pretty_N_go_underscoreFree. exact I. }
  destruct z as [| p | p]; unfold pretty, pretty_Z.
  - cbn. split; [discriminate | exact I].
  - apply HN.
  - cbn. split; [discriminate | apply HN].
Qed.

(** The key is cut at its last two underscores, and [pretty] is
    injective. *)
Lemma cacheKey_inj (c1 c2 : string) (b1 b2 m1 m2 : Z) :
  cacheKey c1 b1 m1 = cacheKey c2 b2 m2 ->
  c1 = c2 /\ b1 = b2 /\ m1 = m2.
Proof.
  unfold cacheKey. intros Hkey.
  assert (Hsplit : forall (c pb pm : string),
             c +:+ "_" +:+ pb +:+ "_" +:+ pm = (c +:+ String "_" pb) +:+ String "_" pm).
  { intros c pb pm. rewrite string_app_assoc. reflexivity. }
  rewrite !Hsplit in Hkey.
  apply cut_at_last_underscore in Hkey as [Hkey Hm];
    [| apply pretty_Z_underscoreFree ..].
  apply cut_at_last_underscore in Hkey as [Hc Hb];
    [| apply pretty_Z_underscoreFree ..].
  repeat split; [exact Hc | |]; apply (inj pretty); assumption.
Qed.

(** X8.  The cache key [`${constant}_${base}_${maxDigits}`] determines
    the three arguments, also when the constant's name has underscores:
    two calls of [getConstantInBase] share a cache entry only when their
    arguments are the same. *)
Theorem cacheKey_injective (c1 c2 : string) (b1 b2 m1 m2 : Z) :
  cacheKey c1 b1 m1 = cacheKey c2 b2 m2 ->
  c1 = c2 /\ b1 = b2 /\ m1 = m2.
Proof. apply cacheKey_inj. Qed.

Lemma cacheKey_injective_witness :
  "pi_16"%string = "pi_16"%string /\ 10000 = 10000 /\ 7 = 7.
Proof.
  apply (cacheKey_injective "pi_16" "pi_16" 10000 10000 7 7). reflexivity.
Defined.

(** ** How the methods move the state *)

(** Whatever relation on states is reflexive, transitive and followed by
    [getConstantInBase] is followed by every method: the cache and the
    random source are touched nowhere else. *)
Section Moves.

Variable R : PiStorage -> PiStorage -> Prop.

Hypothesis R_refl : forall s, R s s.
Hypothesis R_trans : forall s1 s2 s3, R s1 s2 -> R s2 s3 -> R s1 s3.
Hypothesis R_generator :
  forall constant base maxDigits, moves R (getConstantInBase constant base maxDigits).

Lemma moves_ret {A} (a : A) : moves R (ret a).
Proof. intros s. apply R_refl. Qed.

Lemma moves_throw {A} e : moves R (@throw A e).
Proof. intros s. apply R_refl. Qed.

Lemma moves_lift {A} (r : outcome A) : moves R (lift r).
Proof. intros s. apply R_refl. Qed.

Lemma moves_bind {A B} (m : M A) (k : A -> M B) :
  moves R m -> (forall a, moves R (k a)) -> moves R (bind m k).
Proof.
  intros Hm Hk s. unfold bind. specialize (Hm s).
  destruct (m s) as [[a | e] s1]; cbn in Hm; [| exact Hm].
  apply (R_trans _ _ _ Hm), Hk.
Qed.

Lemma moves_try_catch {A} (body : M A) handler :
  moves R body -> (forall e, moves R (handler e)) -> moves R (try_catch body handler).
Proof.
  intros Hm Hk s. unfold try_catch. specialize (Hm s).
  destruct (body s) as [[a | e] s1]; cbn in Hm; [exact Hm |].
  apply (R_trans _ _ _ Hm), Hk.
Qed.

Lemma moves_findOptimalSequence message constant base :
  moves R (findOptimalSequence message constant base).
Proof.
  unfold findOptimalSequence. apply moves_bind; [apply R_generator |].
  intros digits. destruct (scan _ _); apply moves_ret.
Qed.

Lemma moves_tryCandidate message constant base best :
  moves R (tryCandidate message constant base best).
Proof.
  unfold tryCandidate. apply moves_try_catch; [| intros; apply moves_ret].
  apply moves_bind; [apply moves_findOptimalSequence |]. intros result.
  apply moves_bind; [apply moves_lift |]. intros startText.
  apply moves_bind; [apply moves_lift |]. intros lengthText.
  cbv zeta. destruct (belowBest _ _); apply moves_ret.
Qed.

Lemma moves_forBases message constant bases best :
  moves R (forBases message constant bases best).
Proof.
  revert best. induction bases as [| base rest IH]; intros best; cbn [forBases].
  - apply moves_ret.
  - apply moves_bind; [apply moves_tryCandidate | intros; apply IH].
Qed.

Lemma moves_forConstants message names bases best :
  moves R (forConstants message names bases best).
Proof.
  revert best. induction names as [| constant rest IH]; intros best;
    cbn [forConstants].
  - apply moves_ret.
  - apply moves_bind; [apply moves_forBases | intros; apply IH].
Qed.

Lemma moves_encode message : moves R (encode message).
Proof.
  unfold encode. destruct (_ =? 0); [apply moves_throw |]. cbv zeta.
  apply moves_bind; [apply moves_forConstants |].
  intros best. destruct (fst best); [apply moves_ret | apply moves_throw].
Qed.

Lemma moves_decode constant base start length :
  moves R (decode constant base start length).
Proof.
  unfold decode. destruct (constants constant); try apply moves_throw;
    (apply moves_bind; [apply R_generator | intros; apply moves_ret]).
Qed.

Lemma later_moves s s' : later s s' -> R s s'.
Proof.
  induction 1 as [| s' c b m _ IH | s' msg c b _ IH | s' msg _ IH
                  | s' c b st len _ IH].
  - apply R_refl.
  - apply (R_trans _ _ _ IH), R_generator.
  - apply (R_trans _ _ _ IH), moves_findOptimalSequence.
  - apply (R_trans _ _ _ IH), moves_encode.
  - apply (R_trans _ _ _ IH), moves_decode.
Qed.

End Moves.

Lemma reachable_later s : reachable s -> exists source, later (newPiStorage source) s.
Proof.
  induction 1 as [source | s c b m _ [src IH] | s msg c b _ [src IH]
                  | s msg _ [src IH] | s c b st len _ [src IH]].
  - exists source. constructor.
  - exists src. constructor. exact IH.
  - exists src. constructor. exact IH.
  - exists src. constructor. exact IH.
  - exists src. constructor. exact IH.
Qed.

(** *** The cache only grows *)

Lemma grows_refl s : grows s s.
Proof. unfold grows. repeat split; [reflexivity | lia]. Qed.

Lemma grows_trans s1 s2 s3 : grows s1 s2 -> grows s2 s3 -> grows s1 s3.
Proof.
  intros (Hc1 & Hr1 & Hn1) (Hc2 & Hr2 & Hn2). repeat split.
  - etransitivity; eassumption.
  - congruence.
  - lia.
Qed.

Lemma grows_generator constant base maxDigits :
  moves grows (getConstantInBase constant base maxDigits).
Proof.
  intros s.
  destruct (baseDigitsCache s !! cacheKey constant base maxDigits) as [cached |] eqn:Hc.
  - rewrite (getConstantInBase_hit _ _ _ _ _ Hc). apply grows_refl.
  - destruct (constants constant) as [text | |] eqn:Htext.
    + rewrite (getConstantInBase_miss _ _ _ _ _ Hc Htext). cbn.
      repeat split; cbn; [apply insert_subseteq, Hc | lia].
    + unfold getConstantInBase. rewrite Hc, Htext. apply grows_refl.
    + unfold getConstantInBase. rewrite Hc, Htext. apply grows_refl.
Qed.

Lemma later_grows s s' : later s s' -> grows s s'.
Proof. apply later_moves; [apply grows_refl | apply grows_trans | apply grows_generator]. Qed.

(** X9.  No method removes or replaces a cache entry: after any calls,
    every array that was cached is still cached under its key,
    unchanged; the count of [Math.random] calls made never goes down. *)
Theorem cache_only_grows (s s' : PiStorage) (key : string) (digits : list Z) :
  later s s' ->
  baseDigitsCache s !! key = Some digits ->
  baseDigitsCache s' !! key = Some digits /\
  (randomCalls s <= randomCalls s')%N.
Proof.
  intros Hlater Hcached. destruct (later_grows _ _ Hlater) as (Hsub & _ & Hcalls).
  split; [| exact Hcalls]. eapply lookup_weaken; eassumption.
Qed.

(** The state after a call that returned an array holds that array
    under the call's key. *)
Lemma getConstantInBase_cached constant base maxDigits s digits s1 :
  getConstantInBase constant base maxDigits s = (Ok digits, s1) ->
  baseDigitsCache s1 !! cacheKey constant base maxDigits = Some digits.
Proof.
  intros Hrun.
  destruct (baseDigitsCache s !! cacheKey constant base maxDigits) as [cached |] eqn:Hc.
  - rewrite (getConstantInBase_hit _ _ _ _ _ Hc) in Hrun. injection Hrun as <- <-.
    exact Hc.
  - destruct (constants constant) as [text | |] eqn:Htext.
    + rewrite (getConstantInBase_miss _ _ _ _ _ Hc Htext) in Hrun.
      injection Hrun as <- <-. cbn. apply lookup_insert_eq.
    + unfold getConstantInBase in Hrun. rewrite Hc, Htext in Hrun. discriminate Hrun.
    + unfold getConstantInBase in Hrun. rewrite Hc, Htext in Hrun. discriminate Hrun.
Qed.

(** X10.  Within one instance the generator repeats itself: once a call
    has returned an array, the same call, made right away or after any
    other calls, returns that array again and changes nothing. *)
Theorem getConstantInBase_stable
    (constant : string) (base maxDigits : Z)
    (s s1 s2 : PiStorage) (digits : list Z) :
  getConstantInBase constant base maxDigits s = (Ok digits, s1) ->
  later s1 s2 ->
  getConstantInBase constant base maxDigits s2 = (Ok digits, s2).
Proof.
  intros Hrun Hlater. apply getConstantInBase_hit.
  destruct (later_grows _ _ Hlater) as (Hsub & _).
  eapply lookup_weaken; [| exact Hsub].
  apply (getConstantInBase_cached _ _ _ _ _ _ Hrun).
Qed.

Lemma cache_only_grows_witness :
  let s0 := snd (getConstantInBase "pi" 10 103 (newPiStorage zeros)) in
  let s1 := snd (decode "e" 16 0 5 s0) in
  baseDigitsCache s1 !! "pi_10_103"%string = Some (expansionDigits "pi" ++ [0; 0]) /\
  (randomCalls s0 <= randomCalls s1)%N.
Proof.
  cbv zeta. apply cache_only_grows.
  - apply later_decode, later_now.
  - vm_compute. reflexivity.
Defined.

Lemma getConstantInBase_stable_witness :
  let s0 := newPiStorage ones in
  let s1 := snd (getConstantInBase "phi" 16 105 s0) in
  let s2 := snd (decode "phi" 16 0 200 s1) in
  getConstantInBase "phi" 16 105 s2
  = (Ok (expansionDigits "phi" ++ [1; 1; 1; 1]), s2).
Proof.
  cbv zeta.
  apply (getConstantInBase_stable "phi" 16 105 (newPiStorage ones)
           (snd (getConstantInBase "phi" 16 105 (newPiStorage ones)))).
  - vm_compute. reflexivity.
  - apply later_decode, later_now.
Defined.

(** *** What the cache holds *)

Lemma randomDigits_length source from count :
  length (randomDigits source from count) = count.
Proof.
  revert from. induction count as [| n IH]; intros from; cbn; [reflexivity |].
  rewrite IH. reflexivity.
Qed.

Lemma cacheExact_generator constant base maxDigits s :
  cacheExact s -> cacheExact (snd (getConstantInBase constant base maxDigits s)).
Proof.
  intros Hexact.
  destruct (baseDigitsCache s !! cacheKey constant base maxDigits) as [cached |] eqn:Hc.
  - rewrite (getConstantInBase_hit _ _ _ _ _ Hc). exact Hexact.
  - destruct (constants constant) as [text | |] eqn:Htext.
    + rewrite (getConstantInBase_miss _ _ _ _ _ Hc Htext). cbn.
      intros c b m digits Hlook. cbn [baseDigitsCache] in Hlook.
      rewrite lookup_insert in Hlook. case_decide as Hkey.
      * apply cacheKey_inj in Hkey as (<- & <- & <-).
        injection Hlook as <-.
        pose proof (expansion_chars_are_digits _ _ Htext) as [_ Hlen].
        rewrite (seedDigits_expansion _ _ _ Htext).
        eexists text, _. repeat split; try reflexivity; try assumption.
        -- rewrite randomDigits_length, Hlen. f_equal.
        -- apply randomDigits_decimal.
      * apply (Hexact _ _ _ _ Hlook).
    + unfold getConstantInBase. rewrite Hc, Htext. exact Hexact.
    + unfold getConstantInBase. rewrite Hc, Htext. exact Hexact.
Qed.

Lemma reachable_cacheExact s : reachable s -> cacheExact s.
Proof.
  intros Hreach. destruct (reachable_later _ Hreach) as [source Hlater].
  apply (later_moves (fun s s' => cacheExact s -> cacheExact s')
           (fun _ H => H) (fun _ _ _ H1 H2 H => H2 (H1 H))
           (fun c b m s0 => cacheExact_generator c b m s0) _ _ Hlater).
  intros c b m digits Hlook. cbn in Hlook.
  rewrite lookup_empty in Hlook. discriminate Hlook.
Qed.

(** On a reachable instance, what a call for a constant of the table
    returns, and what it does to the count of random calls. *)
Lemma getConstantInBase_exact constant base maxDigits s text :
  reachable s ->
  constants constant = Expansion text ->
  exists filler s',
    getConstantInBase constant base maxDigits s
    = (Ok (expansionDigits constant ++ filler), s') /\
    length filler = Z.to_nat (maxDigits - 101) /\
    Forall decimalDigit filler /\
    (randomCalls s <= randomCalls s' <= randomCalls s + N.of_nat (length filler))%N.
Proof.
  intros Hreach Htext. apply reachable_cacheExact in Hreach.
  destruct (baseDigitsCache s !! cacheKey constant base maxDigits) as [cached |] eqn:Hc.
  - destruct (Hreach _ _ _ _ Hc) as (text' & filler & _ & -> & Hlen & Hdec).
    exists filler, s. rewrite (getConstantInBase_hit _ _ _ _ _ Hc).
    repeat split; try assumption; lia.
  - pose proof (expansion_chars_are_digits _ _ Htext) as [_ Hlen].
    rewrite (getConstantInBase_miss _ _ _ _ _ Hc Htext).
    rewrite (seedDigits_expansion _ _ _ Htext), Hlen.
    eexists _, _. split; [reflexivity |]. cbn [randomCalls].
    rewrite randomDigits_length.
    repeat split; try lia. apply randomDigits_decimal.
Qed.

(** X11.  On a reachable instance the array returned for a constant of
    the table has [max(101, maxDigits)] digits: the 101 digits of the
    table are never cut, whatever [maxDigits] is, and the array is
    filled up to [maxDigits] when that is more. *)
Theorem getConstantInBase_length
    (constant : string) (base maxDigits : Z) (s : PiStorage) (text : string) :
  reachable s ->
  constants constant = Expansion text ->
  exists digits s',
    getConstantInBase constant base maxDigits s = (Ok digits, s') /\
    Z.of_nat (length digits) = Z.max 101 maxDigits /\
    take 101 digits = expansionDigits constant.
Proof.
  intros Hreach Htext.
  destruct (getConstantInBase_exact constant base maxDigits s text Hreach Htext)
    as (filler & s' & Hrun & Hlen & _).
  pose proof (expansion_chars_are_digits _ _ Htext) as [_ Hseed].
  eexists _, s'. split; [exact Hrun |]. split.
  - rewrite length_app, Hseed, Hlen. lia.
  - rewrite take_app_length' by (symmetry; exact Hseed). reflexivity.
Qed.

Lemma getConstantInBase_length_witness :
  exists digits s',
    getConstantInBase "e" 16 (-5) (newPiStorage zeros) = (Ok digits, s') /\
    Z.of_nat (length digits) = Z.max 101 (-5) /\
    take 101 digits = expansionDigits "e".
Proof.
  apply (getConstantInBase_length "e" 16 (-5) (newPiStorage zeros)
           "2.7182818284590452353602874713526624977572470936999595749669676277240766303535475945713821785251664274").
  - apply reachable_new.
  - reflexivity.
Defined.

(** X12.  On a reachable instance a request for at most 101 digits of a
    constant of the table returns the table's 101 digits and nothing
    else, makes no call of [Math.random], and so does not depend on the
    base, on the instance's history or on the environment. *)
Theorem getConstantInBase_seed_only
    (constant : string) (base maxDigits : Z) (s : PiStorage) (text : string) :
  reachable s ->
  constants constant = Expansion text ->
  maxDigits <= 101 ->
  exists s',
    getConstantInBase constant base maxDigits s = (Ok (expansionDigits constant), s') /\
    randomCalls s' = randomCalls s.
Proof.
  intros Hreach Htext Hmax.
  destruct (getConstantInBase_exact constant base maxDigits s text Hreach Htext)
    as (filler & s' & Hrun & Hlen & _ & Hcalls).
  replace (Z.to_nat (maxDigits - 101)) with 0%nat in Hlen by lia.
  destruct filler; [| discriminate Hlen]. rewrite app_nil_r in Hrun.
  exists s'. split; [exact Hrun |]. cbn in Hcalls. lia.
Qed.

Lemma getConstantInBase_seed_only_witness :
  exists s',
    getConstantInBase "pi" 256 42 (newPiStorage ones) = (Ok (expansionDigits "pi"), s') /\
    randomCalls s' = randomCalls (newPiStorage ones).
Proof.
  apply (getConstantInBase_seed_only "pi" 256 42 (newPiStorage ones)
           "3.1415926535897932384626433832795028841971693993751058209749445923078164062862089986280348253421170679").
  - apply reachable_new.
  - reflexivity.
  - lia.
Defined.

Lemma getConstantInBase_other_names constant base maxDigits s :
  cacheExact s ->
  (constants constant = Undefined ->
     getConstantInBase constant base maxDigits s = (Throw UnknownConstant, s)) /\
  (constants constant = Inherited ->
     getConstantInBase constant base maxDigits s = (Throw JsTypeError, s)).
Proof.
  intros Hexact.
  assert (Hmiss : (exists text, constants constant = Expansion text) \/
                  baseDigitsCache s !! cacheKey constant base maxDigits = None).
  { destruct (baseDigitsCache s !! _) as [cached |] eqn:Hc; [left | right; reflexivity].
    destruct (Hexact _ _ _ _ Hc) as (text & _ & Htext & _). eauto. }
  split; intros Hname; (destruct Hmiss as [[text Htext] | Hmiss]; [congruence |]);
    unfold getConstantInBase; rewrite Hmiss, Hname; reflexivity.
Qed.

(** X13.  On a reachable instance [getConstantInBase] fails for every
    name that is not one of the table's three: with "Unknown constant"
    when the name is no property of the table at all, with a TypeError
    when it names a member of [Object.prototype]; in both cases the
    instance is left as it was. *)
Theorem getConstantInBase_failures
    (constant : string) (base maxDigits : Z) (s : PiStorage) :
  reachable s ->
  (constants constant = Undefined ->
     getConstantInBase constant base maxDigits s = (Throw UnknownConstant, s)) /\
  (constants constant = Inherited ->
     getConstantInBase constant base maxDigits s = (Throw JsTypeError, s)).
Proof.
  intros Hreach. apply getConstantInBase_other_names, reachable_cacheExact, Hreach.
Qed.

Lemma getConstantInBase_failures_witness :
  getConstantInBase "tau" 10 5 (newPiStorage zeros)
  = (Throw UnknownConstant, newPiStorage zeros) /\
  getConstantInBase "valueOf" 10 5 (newPiStorage zeros)
  = (Throw JsTypeError, newPiStorage zeros).
Proof.
  destruct (getConstantInBase_failures "tau" 10 5 (newPiStorage zeros)
              (reachable_new zeros)) as [Hunknown _].
  destruct (getConstantInBase_failures "valueOf" 10 5 (newPiStorage zeros)
              (reachable_new zeros)) as [_ Hinherited].
  split; [apply Hunknown | apply Hinherited]; reflexivity.
Defined.

(** ** Sequence locator *)

(** X14.  What [findOptimalSequence] answers, given the array it
    searched.  The tuple repeats the constant and the base.  It has
    [found: true] exactly when the message occurs at an offset [k] with
    [k + message.length < constantDigits.length]; its start is then the
    first offset where the message occurs and its length the message's.
    Otherwise it is the fallback tuple, start 0 and twice the message
    length. *)
Theorem findOptimalSequence_first_occurrence
    (message : jsstring) (constant : string) (base : Z)
    (s : PiStorage) (digits : list Z) (s1 : PiStorage) :
  getConstantInBase constant base defaultMaxDigits s = (Ok digits, s1) ->
  exists result,
    findOptimalSequence message constant base s = (Ok result, s1) /\
    Encoding.constant result = constant /\
    Encoding.base result = base /\
    (Encoding.found result = true <->
       exists k, (k + length message < length digits)%nat /\
                 occursAt digits message k) /\
    (Encoding.found result = true ->
       Encoding.length result = Z.of_nat (length message) /\
       0 <= Encoding.start result /\
       occursAt digits message (Z.to_nat (Encoding.start result)) /\
       forall j, (j < Z.to_nat (Encoding.start result))%nat ->
                 ~ occursAt digits message j) /\
    (Encoding.found result = false ->
       Encoding.start result = 0 /\
       Encoding.length result = Z.of_nat (length message) * 2).
Proof.
  intros Hrun. eexists. split; [apply (findOptimalSequence_run _ _ _ _ _ _ Hrun) |].
  unfold scan. destruct (scanFrom _ digits message 0) as [start |] eqn:Hscan; cbn.
  - apply scanFrom_Some in Hscan as (k & Hk & -> & Hocc & Hfirst).
    rewrite Z.add_0_l, Nat2Z.id. repeat split; try discriminate; try lia; auto.
    intros _. exists k. split; [lia | exact Hocc].
  - repeat split; try discriminate; auto.
    intros (k & Hk & Hocc). exfalso.
    apply (proj1 (scanFrom_None _ _ _ _) Hscan k); [lia | exact Hocc].
Qed.

Lemma findOptimalSequence_first_occurrence_witness :
  exists digits s1 result,
    getConstantInBase "e" 16 defaultMaxDigits (newPiStorage zeros) = (Ok digits, s1) /\
    findOptimalSequence [8; 2; 8] "e" 16 (newPiStorage zeros) = (Ok result, s1) /\
    Encoding.constant result = "e"%string /\
    Encoding.base result = 16 /\
    (Encoding.found result = true <->
       exists k, (k + 3 < length digits)%nat /\ occursAt digits [8; 2; 8] k).
Proof.
  assert (Hrun : exists digits s1,
             getConstantInBase "e" 16 defaultMaxDigits (newPiStorage zeros)
             = (Ok digits, s1)).
  { eexists _, _. vm_compute. reflexivity. }
  destruct Hrun as (digits & s1 & Hrun).
  exists digits, s1.
  destruct (findOptimalSequence_first_occurrence [8; 2; 8] "e" 16 _ _ _ Hrun)
    as (result & Hfind & Hconstant & Hbase & Hiff & _).
  exists result. repeat split; try assumption; apply Hiff.
Defined.

(** X15.  On a reachable instance the locator finds the empty message
    at offset 0 of every constant of the table: [encode] refuses the
    empty message, [findOptimalSequence] does not. *)
Theorem findOptimalSequence_empty_message
    (constant : string) (base : Z) (s : PiStorage) (text : string) :
  reachable s ->
  constants constant = Expansion text ->
  exists s',
    findOptimalSequence [] constant base s
    = (Ok (Encoding.make constant base 0 0 true), s').
Proof.
  intros Hreach Htext.
  destruct (getConstantInBase_exact constant base defaultMaxDigits s text Hreach Htext)
    as (filler & s' & Hrun & _).
  pose proof (expansion_chars_are_digits _ _ Htext) as [_ Hseed].
  exists s'. rewrite (findOptimalSequence_run _ _ _ _ _ _ Hrun).
  unfold scan. rewrite length_app, Hseed. cbn [length].
  destruct (Z.to_nat _) eqn:Hiterations; [lia | reflexivity].
Qed.

Lemma findOptimalSequence_empty_message_witness :
  exists s',
    findOptimalSequence [] "phi" 32 (newPiStorage zeros)
    = (Ok (Encoding.make "phi" 32 0 0 true), s').
Proof.
  apply (findOptimalSequence_empty_message "phi" 32 (newPiStorage zeros)
           "1.6180339887498948482045868343656381177203091798057628621354486227052604628189024497072072041893911374").
  - apply reachable_new.
  - reflexivity.
Defined.

(** ** Encoder *)

Lemma findOptimalSequence_echo message constant base s result s1 :
  findOptimalSequence message constant base s = (Ok result, s1) ->
  Encoding.constant result = constant /\ Encoding.base result = base.
Proof.
  unfold findOptimalSequence, bind.
  destruct (getConstantInBase _ _ _ s) as [[digits | e] s']; [| discriminate].
  destruct (scan _ _); unfold ret; intros H; injection H as <- <-; auto.
Qed.

(** One candidate of [encode] is one step of [consider]. *)
Lemma tryCandidate_consider message constant base best s result s1 :
  findOptimalSequence message constant base s = (Ok result, s1) ->
  tryCandidate message constant base best s = (Ok (consider best result), s1).
Proof.
  intros Hfind. destruct (findOptimalSequence_echo _ _ _ _ _ _ Hfind) as [_ Hbase].
  unfold tryCandidate, try_catch, bind, lift, consider, renderedSize.
  rewrite Hfind, Hbase.
  destruct (Number_toString (Encoding.start result) base) as [startText |];
    [| reflexivity].
  destruct (Number_toString (Encoding.length result) base) as [lengthText |];
    [| reflexivity].
  cbv zeta. destruct (belowBest _ _); reflexivity.
Qed.

Lemma forBases_fold message constant text bases :
  constants constant = Expansion text ->
  forall best s,
    exists new s',
      searchBases message constant bases s = (Ok new, s') /\
      forBases message constant bases best s = (Ok (fold_left consider new best), s') /\
      Forall (fun r => Encoding.constant r = constant /\ Encoding.base r ∈ bases) new.
Proof.
  intros Htext. induction bases as [| base rest IH]; intros best s.
  - exists [], s. repeat split. constructor.
  - destruct (search_fallbackShape message constant base s _ Htext I)
      as (result & s1 & Hfind & _).
    destruct (IH (consider best result) s1) as (new & s' & Hsearch & Hfor & Hecho).
    exists (result :: new), s'. cbn [forBases searchBases fold_left]. unfold bind.
    rewrite Hfind, Hsearch, (tryCandidate_consider _ _ _ _ _ _ _ Hfind), Hfor.
    repeat split. constructor.
    + destruct (findOptimalSequence_echo _ _ _ _ _ _ Hfind) as [-> ->].
      split; [reflexivity | apply elem_of_cons; auto].
    + eapply Forall_impl; [exact Hecho |]. intros r [Hc Hb].
      split; [exact Hc | apply elem_of_cons; auto].
Qed.

Lemma forConstants_fold message names bases :
  Forall (fun constant => exists text, constants constant = Expansion text) names ->
  forall best s,
    exists new s',
      searchConstants message names bases s = (Ok new, s') /\
      forConstants message names bases best s = (Ok (fold_left consider new best), s') /\
      Forall (fun r => Encoding.constant r ∈ names /\ Encoding.base r ∈ bases) new.
Proof.
  induction 1 as [| constant rest [text Htext] _ IH]; intros best s.
  - exists [], s. repeat split. constructor.
  - destruct (forBases_fold message constant text bases Htext best s)
      as (new1 & s1 & Hsearch1 & Hfor1 & Hecho1).
    destruct (IH (fold_left consider new1 best) s1) as (new & s' & Hsearch & Hfor & Hecho).
    exists (new1 ++ new), s'. cbn [forConstants searchConstants]. unfold bind.
    rewrite Hsearch1, Hsearch, Hfor1, Hfor, fold_left_app.
    repeat split. apply Forall_app. split.
    + eapply Forall_impl; [exact Hecho1 |]. intros r [-> Hb].
      split; [apply elem_of_cons; auto | exact Hb].
    + eapply Forall_impl; [exact Hecho |]. intros r [Hc Hb].
      split; [apply elem_of_cons; auto | exact Hb].
Qed.

(** [encode] is the twelve searches followed by a selection that does
    not look at the instance. *)
Lemma encode_selects message s :
  message <> [] ->
  exists results s',
    candidateSearches message s = (Ok results, s') /\
    encode message s
    = (match fst (fold_left consider results (None, None)) with
       | Some bestResult => Ok bestResult
       | None => Throw CouldNotEncode
       end, s') /\
    Forall (fun r => Encoding.constant r ∈ ["pi"; "e"; "phi"]%string /\
                     Encoding.base r ∈ [16; 32; 64; 256]) results.
Proof.
  intros Hne. unfold encode, candidateSearches.
  destruct (Z.eqb_spec (Z.of_nat (length message)) 0) as [Hlen | _].
  { destruct message; [congruence | cbn in Hlen; lia]. }
  cbv zeta.
  destruct (forConstants_fold message ["pi"; "e"; "phi"]%string [16; 32; 64; 256])
    with (best := (@None Encoding.t, @None Z)) (s := s)
    as (results & s' & Hsearch & Hfor & Hecho).
  { repeat constructor; eexists; reflexivity. }
  exists results, s'. unfold bind. rewrite Hfor.
  repeat split; try assumption.
  destruct (fst (fold_left consider results (None, None))); reflexivity.
Qed.

(** *** The selection *)

Lemma bestAfter_step results best result :
  bestAfter results best -> bestAfter (results ++ [result]) (consider best result).
Proof.
  unfold consider. destruct best as [[r |] [size |]]; cbn [bestAfter snd]; try tauto.
  - intros (Hsize & size' & earlier & later0 & -> & Hsize' & Hearlier & Hlater).
    assert (size' = size) as -> by congruence.
    destruct (renderedSize result) as [new |] eqn:Hnew.
    + cbn [belowBest]. destruct (Z.ltb_spec new size) as [Hlt | Hge].
      * cbn [bestAfter]. split; [exact Hnew |].
        exists new, (earlier ++ r :: later0), []. repeat split; auto.
        apply Forall_app. split; [| constructor].
        -- eapply Forall_impl; [exact Hearlier |]. cbn. intros x Hx sz Hsz.
           specialize (Hx sz Hsz). lia.
        -- intros sz Hsz. assert (sz = size) by congruence. lia.
        -- eapply Forall_impl; [exact Hlater |]. cbn. intros x Hx sz Hsz.
           specialize (Hx sz Hsz). lia.
      * cbn [bestAfter]. split; [exact Hsize |].
        exists size, earlier, (later0 ++ [result]). repeat split; auto.
        -- rewrite <- app_assoc. reflexivity.
        -- apply Forall_app. split; [exact Hlater |]. constructor; [| constructor].
           intros sz Hsz. assert (sz = new) by congruence. lia.
    + cbn [bestAfter]. split; [exact Hsize |].
      exists size, earlier, (later0 ++ [result]). repeat split; auto.
      * rewrite <- app_assoc. reflexivity.
      * apply Forall_app. split; [exact Hlater |]. constructor; [| constructor].
        intros sz Hsz. congruence.
  - intros Hnone. destruct (renderedSize result) as [new |] eqn:Hnew.
    + cbn [belowBest bestAfter]. split; [exact Hnew |].
      exists new, results, []. repeat split; auto.
      eapply Forall_impl; [exact Hnone |]. cbn. intros x Hx sz Hsz. congruence.
    + cbn [bestAfter]. apply Forall_app. split; [exact Hnone |].
      constructor; [exact Hnew | constructor].
Qed.

Lemma bestAfter_fold more :
  forall results best,
    bestAfter results best ->
    bestAfter (results ++ more) (fold_left consider more best).
Proof.
  induction more as [| result rest IH]; intros results best Hbest; cbn [fold_left].
  - rewrite app_nil_r. exact Hbest.
  - replace (results ++ result :: rest) with ((results ++ [result]) ++ rest)
      by (rewrite <- app_assoc; reflexivity).
    apply IH, bestAfter_step, Hbest.
Qed.

Lemma renderedSize_validRadix result :
  is_Some (renderedSize result) <-> validRadix (Encoding.base result).
Proof.
  unfold renderedSize, validRadix. split.
  - intros [size Hsize]. unfold Number_toString in Hsize.
    destruct (Z_le_dec 2 (Encoding.base result)); [| discriminate].
    destruct (Z.gtb_spec (Encoding.base result) 36); [discriminate | lia].
  - intros Hvalid.
    destruct (Number_toString_valid (Encoding.start result) _ Hvalid) as [a ->].
    destruct (Number_toString_valid (Encoding.length result) _ Hvalid) as [b ->].
    eauto.
Qed.

(** What [encode] returns for a non-empty message. *)
Lemma encode_result message s :
  message <> [] ->
  exists results result s',
    candidateSearches message s = (Ok results, s') /\
    encode message s = (Ok result, s') /\
    firstSmallest results result /\
    Encoding.constant result ∈ ["pi"; "e"; "phi"]%string /\
    (Encoding.base result = 16 \/ Encoding.base result = 32).
Proof.
  intros Hne.
  destruct (encode_selects message s Hne) as (results & s' & Hsearch & Hencode & Hecho).
  assert (Hbest : bestAfter ([] ++ results) (fold_left consider results (None, None)))
    by (apply bestAfter_fold; constructor).
  cbn [app] in Hbest.
  destruct (fold_left consider results (None, None)) as [[result |] [size |]];
    cbn [bestAfter fst] in *; try tauto.
  - destruct Hbest as [Hsize Hfirst].
    assert (Hin : result ∈ results).
    { destruct Hfirst as (? & earlier & later0 & -> & _).
      apply elem_of_app. right. apply elem_of_cons. auto. }
    rewrite Forall_forall in Hecho. destruct (Hecho _ Hin) as [Hc Hb].
    assert (Hvalid : validRadix (Encoding.base result))
      by (apply renderedSize_validRadix; eauto).
    exists results, result, s'. repeat split; try assumption.
    unfold validRadix in Hvalid.
    repeat (apply elem_of_cons in Hb as [Hb | Hb]; [lia |]).
    apply elem_of_nil in Hb. contradiction.
  - exfalso.
    destruct (encode_returns_a_search_result message (fun _ => True)
                (fallbackShape message) (search_fallbackShape message) s Hne I)
      as (r & _ & s'' & Hok & _).
    rewrite Hencode in Hok. discriminate Hok.
Qed.

(** X16.  For a non-empty message [encode] never throws, on any
    instance: "Could not encode message" cannot happen.  The tuple it
    returns names a constant of the table and base 16 or 32; bases 64
    and 256 are searched but never selected, because
    [toString(base)] refuses them and the candidate is skipped. *)
Theorem encode_returns_base_16_or_32 (message : jsstring) (s : PiStorage) :
  message <> [] ->
  exists result s',
    encode message s = (Ok result, s') /\
    Encoding.constant result ∈ ["pi"; "e"; "phi"]%string /\
    (Encoding.base result = 16 \/ Encoding.base result = 32).
Proof.
  intros Hne.
  destruct (encode_result message s Hne)
    as (results & result & s' & _ & Hencode & _ & Hconstant & Hbase).
  exists result, s'. auto.
Qed.

Lemma encode_returns_base_16_or_32_witness :
  exists result s',
    encode (js "hello") (newPiStorage zeros) = (Ok result, s') /\
    Encoding.constant result ∈ ["pi"; "e"; "phi"]%string /\
    (Encoding.base result = 16 \/ Encoding.base result = 32).
Proof.
  apply (encode_returns_base_16_or_32 (js "hello") (newPiStorage zeros)).
  discriminate.
Defined.

(** X17.  Which tuple [encode] returns: among the tuples of its twelve
    searches, in the order pi, e, phi and 16, 32, 64, 256, the first one
    of smallest size, the size being the number of characters of start
    and length written in the tuple's base.  The [found] flag plays no
    part in the choice. *)
Theorem encode_returns_first_smallest (message : jsstring) (s : PiStorage) :
  message <> [] ->
  exists results result s',
    candidateSearches message s = (Ok results, s') /\
    encode message s = (Ok result, s') /\
    firstSmallest results result.
Proof.
  intros Hne.
  destruct (encode_result message s Hne)
    as (results & result & s' & Hsearch & Hencode & Hfirst & _).
  exists results, result, s'. auto.
Qed.

Lemma encode_returns_first_smallest_witness :
  exists results result s',
    candidateSearches [0; 0; 0] (newPiStorage (zerosThenOnes 3)) = (Ok results, s') /\
    encode [0; 0; 0] (newPiStorage (zerosThenOnes 3)) = (Ok result, s') /\
    firstSmallest results result.
Proof.
  apply (encode_returns_first_smallest [0; 0; 0] (newPiStorage (zerosThenOnes 3))).
  discriminate.
Defined.

(** X18.  The click handler of the encode button writes
    [result.start.toString(result.base)] and
    [result.length.toString(result.base)] for the tuple that [encode]
    returned: neither call throws. *)
Theorem encode_result_is_renderable
    (message : jsstring) (s : PiStorage) (result : Encoding.t) (s' : PiStorage) :
  encode message s = (Ok result, s') ->
  exists startText lengthText,
    Number_toString (Encoding.start result) (Encoding.base result) = Ok startText /\
    Number_toString (Encoding.length result) (Encoding.base result) = Ok lengthText.
Proof.
  intros Hencode.
  assert (Hne : message <> []).
  { intros ->. cbn in Hencode. discriminate Hencode. }
  destruct (encode_result message s Hne)
    as (results & result' & s'' & _ & Hencode' & _ & _ & Hbase).
  rewrite Hencode in Hencode'. injection Hencode' as <- <-.
  assert (Hvalid : validRadix (Encoding.base result))
    by (unfold validRadix; lia).
  destruct (Number_toString_valid (Encoding.start result) _ Hvalid) as [a Ha].
  destruct (Number_toString_valid (Encoding.length result) _ Hvalid) as [b Hb].
  eauto.
Qed.

Lemma encode_result_is_renderable_witness :
  exists startText lengthText,
    Number_toString 1 16 = Ok startText /\ Number_toString 3 16 = Ok lengthText.
Proof.
  assert (Hrun : exists s',
             encode [1; 4; 1] (newPiStorage zeros)
             = (Ok (Encoding.make "pi" 16 1 3 true), s')).
  { eexists. vm_compute. reflexivity. }
  destruct Hrun as [s' Hrun].
  apply (encode_result_is_renderable _ _ _ _ Hrun).
Defined.

(** *** After the first [encode] *)

Lemma findOptimalSequence_cached message constant base s result s1 :
  findOptimalSequence message constant base s = (Ok result, s1) ->
  is_Some (baseDigitsCache s1 !! cacheKey constant base defaultMaxDigits).
Proof.
  unfold findOptimalSequence, bind.
  destruct (getConstantInBase _ _ _ s) as [[digits | e] s'] eqn:Hrun; [| discriminate].
  apply getConstantInBase_cached in Hrun.
  destruct (scan _ _); unfold ret; intros H; injection H as _ <-; eauto.
Qed.

Lemma searchBases_cached message constant bases :
  forall s results s',
    searchBases message constant bases s = (Ok results, s') ->
    grows s s' /\
    forall base, base ∈ bases ->
      is_Some (baseDigitsCache s' !! cacheKey constant base defaultMaxDigits).
Proof.
  induction bases as [| base rest IH]; intros s results s' Hsearch.
  - cbn in Hsearch. injection Hsearch as _ <-. split; [apply grows_refl |].
    intros b Hb. apply elem_of_nil in Hb. contradiction.
  - cbn [searchBases] in Hsearch. unfold bind in Hsearch.
    destruct (findOptimalSequence message constant base s) as [[r | e] s1] eqn:Hfind;
      [| discriminate].
    destruct (searchBases message constant rest s1) as [[rs | e] s2] eqn:Hrest;
      [| discriminate].
    unfold ret in Hsearch. injection Hsearch as _ <-.
    destruct (IH _ _ _ Hrest) as [Hgrows Hcached].
    pose proof (moves_findOptimalSequence grows grows_refl grows_trans grows_generator
                  message constant base s) as Hstep.
    rewrite Hfind in Hstep. cbn [snd] in Hstep.
    split; [apply (grows_trans _ _ _ Hstep Hgrows) |].
    intros b Hb. apply elem_of_cons in Hb as [-> | Hb]; [| apply Hcached, Hb].
    destruct (findOptimalSequence_cached _ _ _ _ _ _ Hfind) as [digits Hdigits].
    exists digits. destruct Hgrows as [Hsub _]. eapply lookup_weaken; eassumption.
Qed.

Lemma searchConstants_cached message names bases :
  forall s results s',
    searchConstants message names bases s = (Ok results, s') ->
    grows s s' /\
    forall constant base, constant ∈ names -> base ∈ bases ->
      is_Some (baseDigitsCache s' !! cacheKey constant base defaultMaxDigits).
Proof.
  induction names as [| constant rest IH]; intros s results s' Hsearch.
  - cbn in Hsearch. injection Hsearch as _ <-. split; [apply grows_refl |].
    intros c b Hc. apply elem_of_nil in Hc. contradiction.
  - cbn [searchConstants] in Hsearch. unfold bind in Hsearch.
    destruct (searchBases message constant bases s) as [[r1 | e] s1] eqn:Hhere;
      [| discriminate].
    destruct (searchConstants message rest bases s1) as [[r2 | e] s2] eqn:Hrest;
      [| discriminate].
    unfold ret in Hsearch. injection Hsearch as _ <-.
    destruct (searchBases_cached _ _ _ _ _ _ Hhere) as [Hgrows1 Hcached1].
    destruct (IH _ _ _ Hrest) as [Hgrows Hcached].
    split; [apply (grows_trans _ _ _ Hgrows1 Hgrows) |].
    intros c b Hc Hb. apply elem_of_cons in Hc as [-> | Hc]; [| apply Hcached; assumption].
    destruct (Hcached1 b Hb) as [digits Hdigits].
    exists digits. destruct Hgrows as [Hsub _]. eapply lookup_weaken; eassumption.
Qed.

Lemma encode_fills_cache message s :
  message <> [] -> candidatesCached (snd (encode message s)).
Proof.
  intros Hne.
  destruct (encode_selects message s Hne) as (results & s' & Hsearch & Hencode & _).
  rewrite Hencode. cbn [snd]. intros c b Hc Hb.
  apply (proj2 (searchConstants_cached _ _ _ _ _ _ Hsearch) c b Hc Hb).
Qed.

Lemma candidatesCached_later s s' :
  candidatesCached s -> later s s' -> candidatesCached s'.
Proof.
  intros Hcached Hlater c b Hc Hb. destruct (Hcached c b Hc Hb) as [digits Hdigits].
  exists digits. destruct (later_grows _ _ Hlater) as [Hsub _].
  eapply lookup_weaken; eassumption.
Qed.

Lemma tryCandidate_warm message constant base best s :
  is_Some (baseDigitsCache s !! cacheKey constant base defaultMaxDigits) ->
  snd (tryCandidate message constant base best s) = s.
Proof.
  intros [digits Hdigits].
  assert (Hfind : snd (findOptimalSequence message constant base s) = s).
  { unfold findOptimalSequence, bind.
    rewrite (getConstantInBase_hit _ _ _ _ _ Hdigits).
    destruct (scan _ _); reflexivity. }
  unfold tryCandidate, try_catch, bind, lift.
  destruct (findOptimalSequence message constant base s) as [[r | e] s1];
    cbn [snd] in Hfind; subst s1; [| reflexivity].
  destruct (Number_toString (Encoding.start r) base); [| reflexivity].
  destruct (Number_toString (Encoding.length r) base); [| reflexivity].
  cbv zeta. destruct (belowBest _ _); reflexivity.
Qed.

Lemma forBases_warm message constant bases s :
  (forall base, base ∈ bases ->
     is_Some (baseDigitsCache s !! cacheKey constant base defaultMaxDigits)) ->
  forall best, snd (forBases message constant bases best s) = s.
Proof.
  induction bases as [| base rest IH]; intros Hcached best; [reflexivity |].
  cbn [forBases]. unfold bind.
  pose proof (tryCandidate_warm message constant base best s
                (Hcached base ltac:(apply elem_of_cons; auto))) as Htry.
  destruct (tryCandidate message constant base best s) as [[best' | e] s1];
    cbn [snd] in Htry; subst s1; [| reflexivity].
  apply IH. intros b Hb. apply Hcached, elem_of_cons. auto.
Qed.

Lemma forConstants_warm message names bases s :
  (forall constant base, constant ∈ names -> base ∈ bases ->
     is_Some (baseDigitsCache s !! cacheKey constant base defaultMaxDigits)) ->
  forall best, snd (forConstants message names bases best s) = s.
Proof.
  induction names as [| constant rest IH]; intros Hcached best; [reflexivity |].
  cbn [forConstants]. unfold bind.
  pose proof (forBases_warm message constant bases s
                (fun b Hb => Hcached constant b ltac:(apply elem_of_cons; auto) Hb)
                best) as Hfor.
  destruct (forBases message constant bases best s) as [[best' | e] s1];
    cbn [snd] in Hfor; subst s1; [| reflexivity].
  apply IH. intros c b Hc Hb. apply Hcached; [apply elem_of_cons; auto | exact Hb].
Qed.

(** X19.  Once [encode] has run on a non-empty message, every later
    [encode] on that instance, of any message and after any other
    calls, finds its twelve arrays in the cache: it calls [Math.random]
    no more and leaves the instance as it is. *)
Theorem encode_after_encode
    (first second : jsstring) (s s2 : PiStorage) :
  first <> [] ->
  later (snd (encode first s)) s2 ->
  snd (encode second s2) = s2.
Proof.
  intros Hne Hlater.
  pose proof (candidatesCached_later _ _ (encode_fills_cache first s Hne) Hlater)
    as Hcached.
  unfold encode. destruct (_ =? 0); [reflexivity |]. cbv zeta. unfold bind.
  pose proof (forConstants_warm second ["pi"; "e"; "phi"]%string [16; 32; 64; 256]
                s2 Hcached (None, None)) as Hfor.
  destruct (forConstants _ _ _ _ s2) as [[best | e] s3]; cbn [snd] in Hfor; subst s3;
    [| reflexivity].
  destruct (fst best); reflexivity.
Qed.

Lemma encode_after_encode_witness :
  let s1 := snd (encode (js "A") (newPiStorage zeros)) in
  let s2 := snd (decode "pi" 10 0 5 s1) in
  snd (encode (js "B") s2) = s2.
Proof.
  cbv zeta. apply (encode_after_encode (js "A") (js "B") (newPiStorage zeros)).
  - discriminate.
  - apply later_decode, later_now.
Defined.

(** ** Decoder *)

Lemma numbersToMessage_decimal numbers :
  Forall decimalDigit numbers -> numbersToMessage numbers = numbers.
Proof.
  intros Hdec. apply (message_codec_roundtrip numbers).
  eapply Forall_impl; [exact Hdec | apply decimalDigit_code_unit].
Qed.

Lemma slice_Forall {A} (P : A -> Prop) (array : list A) start finish :
  Forall P array -> Forall P (slice array start finish).
Proof. intros H. unfold slice. apply Forall_take, Forall_drop, H. Qed.

(** X20.  On a reachable instance every message that [decode] returns
    is made of the code units 0 to 9 only: whatever the arguments, no
    letter, digit character or other printable character comes out. *)
Theorem decode_returns_decimal_code_units
    (constant : string) (base start length : Z)
    (s : PiStorage) (message : jsstring) (s' : PiStorage) :
  reachable s ->
  decode constant base start length s = (Ok message, s') ->
  Forall (fun c => 0 <= c <= 9) message.
Proof.
  intros Hreach Hdecode. apply reachable_invariant in Hreach.
  assert (Hrun : exists digits,
             getConstantInBase constant base (start + length) s = (Ok digits, s') /\
             message = numbersToMessage (slice digits start (start + length))).
  { unfold decode, bind in Hdecode.
    destruct (constants constant);
      try (unfold throw in Hdecode; discriminate Hdecode);
      (destruct (getConstantInBase constant base (start + length) s)
         as [[digits | e] s1]; [| discriminate Hdecode]);
      cbv [ret] in Hdecode; injection Hdecode as <- <-; eauto. }
  destruct Hrun as (digits & Hrun & ->).
  pose proof (getConstantInBase_decimal _ _ _ _ _ _ Hreach Hrun) as Hdec.
  rewrite numbersToMessage_decimal; apply slice_Forall, Hdec.
Qed.

Lemma decode_returns_decimal_code_units_witness :
  Forall (fun c => 0 <= c <= 9) [5; 9; 2].
Proof.
  assert (Hrun : exists s',
             decode "pi" 16 4 3 (newPiStorage zeros) = (Ok [5; 9; 2], s')).
  { eexists. vm_compute. reflexivity. }
  destruct Hrun as [s' Hrun].
  apply (decode_returns_decimal_code_units "pi" 16 4 3 (newPiStorage zeros) _ s').
  - apply reachable_new.
  - exact Hrun.
Defined.

(** X21.  On a reachable instance, decoding coordinates that lie within
    the 101 digits of a constant of the table gives the code units that
    are the table's digits from [start] on, [length] of them; the
    result does not depend on the base, on what was called before or on
    [Math.random], which is not called. *)
Theorem decode_inside_seed
    (constant : string) (base start length : Z) (s : PiStorage) (text : string) :
  reachable s ->
  constants constant = Expansion text ->
  0 <= start -> 0 <= length -> start + length <= 101 ->
  exists s',
    decode constant base start length s
    = (Ok (take (Z.to_nat length) (drop (Z.to_nat start) (expansionDigits constant))),
       s') /\
    randomCalls s' = randomCalls s.
Proof.
  intros Hreach Htext Hstart Hlength Hseed.
  destruct (getConstantInBase_exact constant base (start + length) s text Hreach Htext)
    as (filler & s' & Hrun & Hlen & _ & Hcalls).
  replace (Z.to_nat (start + length - 101)) with 0%nat in Hlen by lia.
  destruct filler; [| discriminate Hlen]. rewrite app_nil_r in Hrun.
  pose proof (expansion_chars_are_digits _ _ Htext) as [Hdec Hseedlen].
  exists s'. split; [| cbn in Hcalls; lia].
  rewrite (decode_run _ _ _ _ _ _ _ _ Htext Hrun). do 2 f_equal.
  rewrite slice_inside by lia.
  replace (Z.to_nat (start + length) - Z.to_nat start)%nat with (Z.to_nat length) by lia.
  apply numbersToMessage_decimal, Forall_take, Forall_drop, Hdec.
Qed.

Lemma decode_inside_seed_witness :
  exists s',
    decode "pi" 256 1 4 (newPiStorage ones) = (Ok [1; 4; 1; 5], s') /\
    randomCalls s' = randomCalls (newPiStorage ones).
Proof.
  apply (decode_inside_seed "pi" 256 1 4 (newPiStorage ones)
           "3.1415926535897932384626433832795028841971693993751058209749445923078164062862089986280348253421170679");
    [apply reachable_new | reflexivity | lia | lia | lia].
Defined.

(** X22.  On a reachable instance, for a constant of the table and a
    start and a length that are not negative, [decode] returns a message
    of exactly [length] code units. *)
Theorem decode_message_length
    (constant : string) (base start length : Z) (s : PiStorage) (text : string) :
  reachable s ->
  constants constant = Expansion text ->
  0 <= start -> 0 <= length ->
  exists message s',
    decode constant base start length s = (Ok message, s') /\
    Z.of_nat (List.length message) = length.
Proof.
  intros Hreach Htext Hstart Hlength.
  destruct (getConstantInBase_exact constant base (start + length) s text Hreach Htext)
    as (filler & s' & Hrun & Hlen & _).
  pose proof (expansion_chars_are_digits _ _ Htext) as [_ Hseedlen].
  eexists _, s'. split; [apply (decode_run _ _ _ _ _ _ _ _ Htext Hrun) |].
  unfold numbersToMessage. rewrite length_map, slice_inside.
  - rewrite length_take, length_drop, length_app, Hseedlen, Hlen. lia.
  - lia.
  - rewrite length_app, Hseedlen, Hlen. lia.
Qed.

Lemma decode_message_length_witness :
  exists message s',
    decode "e" 32 95 20 (newPiStorage zeros) = (Ok message, s') /\
    Z.of_nat (List.length message) = 20.
Proof.
  apply (decode_message_length "e" 32 95 20 (newPiStorage zeros)
           "2.7182818284590452353602874713526624977572470936999595749669676277240766303535475945713821785251664274");
    [apply reachable_new | reflexivity | lia | lia].
Defined.

(** X23.  On a reachable instance, a tuple that [encode] returns with
    [found: true] and whose digits lie within the first 101 of its
    constant decodes to the message that was encoded. *)
Theorem encode_decode_inside_seed
    (message : jsstring) (s : PiStorage) (tuple : Encoding.t) (s' : PiStorage) :
  reachable s ->
  encode message s = (Ok tuple, s') ->
  Encoding.found tuple = true ->
  Encoding.start tuple + Encoding.length tuple <= 101 ->
  exists s'',
    decode (Encoding.constant tuple) (Encoding.base tuple)
           (Encoding.start tuple) (Encoding.length tuple) s'
    = (Ok message, s'').
Proof. apply roundtrip_inside_seed. Qed.

Lemma encode_decode_inside_seed_witness :
  exists s' s'',
    encode [2; 6; 5] (newPiStorage ones) = (Ok (Encoding.make "pi" 16 6 3 true), s') /\
    decode "pi" 16 6 3 s' = (Ok [2; 6; 5], s'').
Proof.
  assert (Hrun : exists s',
             encode [2; 6; 5] (newPiStorage ones)
             = (Ok (Encoding.make "pi" 16 6 3 true), s')).
  { eexists. vm_compute. reflexivity. }
  destruct Hrun as [s' Hrun]. exists s'.
  destruct (encode_decode_inside_seed [2; 6; 5] (newPiStorage ones) _ s'
              (reachable_new ones) Hrun) as [s'' Hdecode];
    [reflexivity | cbn; lia |].
  exists s''. split; [exact Hrun | exact Hdecode].
Defined.

(** X24.  On a reachable instance a name that is not one of the table's
    three makes the callers of the generator fail as the generator
    does, and leaves the instance as it was: [findOptimalSequence]
    throws "Unknown constant" for a name that is no property of the
    table; [findOptimalSequence] and [decode] throw a TypeError for a
    name inherited from [Object.prototype], which passes the test of
    [decode]. *)
Theorem callers_fail_on_other_names
    (message : jsstring) (constant : string) (base start length : Z) (s : PiStorage) :
  reachable s ->
  (constants constant = Undefined ->
     findOptimalSequence message constant base s = (Throw UnknownConstant, s)) /\
  (constants constant = Inherited ->
     findOptimalSequence message constant base s = (Throw JsTypeError, s) /\
     decode constant base start length s = (Throw JsTypeError, s)).
Proof.
  intros Hreach. apply reachable_cacheExact in Hreach.
  destruct (getConstantInBase_other_names constant base defaultMaxDigits s Hreach)
    as [Hunknown Hinherited].
  destruct (getConstantInBase_other_names constant base (start + length) s Hreach)
    as [_ Hinherited'].
  split.
  - intros Hname. unfold findOptimalSequence, bind.
    rewrite (Hunknown Hname). reflexivity.
  - intros Hname. split.
    + unfold findOptimalSequence, bind. rewrite (Hinherited Hname). reflexivity.
    + unfold decode, bind. rewrite Hname, (Hinherited' Hname). reflexivity.
Qed.

Lemma callers_fail_on_other_names_witness :
  findOptimalSequence (js "A") "tau" 16 (newPiStorage zeros)
  = (Throw UnknownConstant, newPiStorage zeros) /\
  decode "toString" 10 0 3 (newPiStorage zeros)
  = (Throw JsTypeError, newPiStorage zeros).
Proof.
  destruct (callers_fail_on_other_names (js "A") "tau" 16 0 0 (newPiStorage zeros)
              (reachable_new zeros)) as [Hunknown _].
  destruct (callers_fail_on_other_names (js "A") "toString" 10 0 3 (newPiStorage zeros)
              (reachable_new zeros)) as [_ Hinherited].
  split; [apply Hunknown; reflexivity |].
  destruct Hinherited as [_ Hdecode]; [reflexivity | exact Hdecode].
Defined.

(** ** The base argument of the generator, and negative numbers *)

(** X25.  The base has no part in the digits: on a fresh instance the
    generator returns, for every base, the array it returns for any
    other base (and fails alike for a name that is not in the table);
    the base only names the cache entry. *)
Theorem getConstantInBase_ignores_base
    (constant : string) (base1 base2 maxDigits : Z) (source : N -> decimal) :
  fst (getConstantInBase constant base1 maxDigits (newPiStorage source))
  = fst (getConstantInBase constant base2 maxDigits (newPiStorage source)).
Proof.
  unfold getConstantInBase. cbn [baseDigitsCache newPiStorage].
  rewrite !lookup_empty.
  destruct (constants constant) as [text | |]; try reflexivity.
  unfold bind, extendWithRandom, cacheSet, ret. cbn [fst].
  rewrite (seedDigits_base base1), (seedDigits_base base2). reflexivity.
Qed.

(** X26.  For a negative number and a base from 2 to 65536,
    [numberToBase] returns the empty text, which [baseToNumber] reads
    as 0: the sign and the value are lost. *)
Theorem numberToBase_negative (number base : Z) :
  number < 0 -> 2 <= base <= 65536 ->
  numberToBase number base = Ok [] /\ baseToNumber [] base = Ok 0.
Proof.
  intros Hneg Hb. unfold numberToBase, baseToNumber, base_out_of_range.
  destruct (Z_le_dec 2 base) as [Hbase | ]; [| lia].
  destruct (Z.gtb_spec base 65536); [lia |].
  destruct (Z.ltb_spec base 2); [lia |].
  destruct (Z.eqb_spec number 0); [lia |].
  rewrite numberToBase_loop_done by lia. auto.
Qed.

Lemma numberToBase_negative_witness :
  numberToBase (-255) 16 = Ok [] /\ baseToNumber [] 16 = Ok 0.
Proof. apply (numberToBase_negative (-255) 16); lia. Defined.
